(** * SingleRoIExtractor: level assignment and per-level pooling router

    A shallow embedding of
    [mmdet/models/roi_heads/roi_extractors/single_level_roi_extractor.py]
    ([SingleRoIExtractor.map_roi_levels] and [SingleRoIExtractor.forward]).

    Modelling conventions.
    - A tensor of shape (k, ...) is the list of its k rows; an RoI tensor
      has five columns by type, so shape errors do not arise.
    - Floating-point values are idealised: a value is a real number, an
      infinity or NaN.  The NaN and infinity rules of IEEE 754 are
      modelled; the rounding of the tensor's dtype, overflow and underflow
      of finite operands, and signed zeros are not.  The model is the code
      wherever the float operations are exact, as they are on the boxes
      evaluated below.  The general statements relate quantities the code
      computes itself (levels, index lists, rows), whatever their values, or
      start from the scale the code computed at lines 56-57.
    - The coordinates of an RoI are finite reals.
    - A raised Python exception is the [Raise] case of [result].
    - [forward] is modelled as it runs eagerly; the [py_symbolic] and
      [force_fp32] decorators (graph export, precision casts) are left out. *)

From Stdlib Require Import Reals ZArith List Bool Arith Lia Lra Permutation Sorted.
From Stdlib Require String.
Import ListNotations.
Import String.StringSyntax.
Delimit Scope string_scope with string.

Set Implicit Arguments.

(** ** Exceptions and the error monad *)

Inductive exn : Type :=
  | IndexError      (* an index outside the tensor or list *)
  | RuntimeError    (* [torch.cat] of an empty list of tensors *)
  | PoolerError.    (* whatever an injected RoI layer raises *)

Inductive result (A : Type) : Type :=
  | Ok (a : A)
  | Raise (e : exn).

Arguments Ok {A} a.
Arguments Raise {A} e.

Definition bind {A B : Type} (m : result A) (k : A -> result B) : result B :=
  match m with
  | Ok a => k a
  | Raise e => Raise e
  end.

Notation "x <- m ;; k" := (bind m (fun x => k))
  (at level 61, m at next level, right associativity).
Notation "' pat <- m ;; k" := (bind m (fun x => match x with pat => k end))
  (at level 61, pat pattern, m at next level, right associativity).

Definition raises {A : Type} (m : result A) : Prop := exists e, m = Raise e.

(** ** Idealised floating-point values *)

Module Float.

Local Open Scope R_scope.

Inductive fval : Type :=
  | Fin (r : R)
  | PInf
  | NInf
  | NaN.

(** [torch.sqrt], elementwise. *)
Definition fsqrt (a : fval) : fval :=
  match a with
  | Fin x => if Rlt_dec x 0 then NaN else Fin (sqrt x)
  | PInf => PInf
  | NInf => NaN
  | NaN => NaN
  end.

(** [tensor / d] for a Python number [d]. *)
Definition fdiv_scalar (a : fval) (d : R) : fval :=
  match a with
  | Fin x =>
      if Req_dec_T d 0
      then (if Req_dec_T x 0 then NaN else if Rlt_dec 0 x then PInf else NInf)
      else Fin (x / d)
  | PInf => if Rlt_dec d 0 then NInf else PInf
  | NInf => if Rlt_dec d 0 then PInf else NInf
  | NaN => NaN
  end.

(** [tensor + c] for a Python number [c]. *)
Definition fadd_scalar (a : fval) (c : R) : fval :=
  match a with
  | Fin x => Fin (x + c)
  | other => other
  end.

(** [torch.log2], elementwise. *)
Definition flog2 (a : fval) : fval :=
  match a with
  | Fin x =>
      if Rlt_dec x 0 then NaN
      else if Req_dec_T x 0 then NInf
      else Fin (ln x / ln 2)
  | PInf => PInf
  | NInf => NaN
  | NaN => NaN
  end.

(** [torch.floor], elementwise. *)
Definition ffloor (a : fval) : fval :=
  match a with
  | Fin x => Fin (IZR (Zfloor x))
  | other => other
  end.

(** [tensor.clamp(min=lo, max=hi)]: [min(max(x, lo), hi)], NaN is kept. *)
Definition fclamp (a : fval) (lo hi : Z) : fval :=
  let lower :=
    match a with
    | Fin x => Fin (Rmax x (IZR lo))
    | PInf => PInf
    | NInf => Fin (IZR lo)
    | NaN => NaN
    end in
  match lower with
  | Fin x => Fin (Rmin x (IZR hi))
  | PInf => Fin (IZR hi)
  | NInf => NInf
  | NaN => NaN
  end.

(** Rounding toward zero. *)
Definition Ztrunc (x : R) : Z :=
  if Rlt_dec x 0 then Zceil x else Zfloor x.

(** [tensor.long()]: conversion to a 64-bit integer, toward zero.  The
    conversion of NaN or of an infinity is not defined by the language;
    [long_undef] is the integer the platform yields for it (x86 processors
    yield [int64_min]). *)
Definition int64_min : Z := (- 2 ^ 63)%Z.

Definition long (long_undef : Z) (a : fval) : Z :=
  match a with
  | Fin x => Ztrunc x
  | _ => long_undef
  end.

Definition is_nan (a : fval) : bool :=
  match a with NaN => true | _ => false end.

End Float.

Import Float.

(** ** Tensor primitives *)

Section Tensors.

Context {A : Type}.

(** [t[idx]] for an index tensor [idx]: the rows of [t] at the positions
    [idx]; a position outside [t] raises. *)
Fixpoint index_select (t : list A) (idx : list nat) : result (list A) :=
  match idx with
  | [] => Ok []
  | i :: idx' =>
      match nth_error t i with
      | Some a => rest <- index_select t idx' ;; Ok (a :: rest)
      | None => Raise IndexError
      end
  end.

(** [torch.cat(ts, dim=0)]: an empty list of tensors raises. *)
Definition cat (ts : list (list A)) : result (list A) :=
  match ts with
  | [] => Raise RuntimeError
  | _ :: _ => Ok (concat ts)
  end.

End Tensors.

(** [torch.nonzero(t).view(-1)] for a one-dimensional integer tensor: the
    positions of its non-zero entries, ascending. *)
Fixpoint nonzero_from (i : nat) (t : list Z) : list nat :=
  match t with
  | [] => []
  | x :: t' =>
      if (x =? 0)%Z then nonzero_from (S i) t' else i :: nonzero_from (S i) t'
  end.

Definition nonzero (t : list Z) : list nat := nonzero_from 0 t.

(** [(t == v).int()] *)
Definition eq_int (t : list Z) (v : Z) : list Z :=
  map (fun x => if (x =? v)%Z then 1%Z else 0%Z) t.

(** Modelled from the spec: [mmdet.core.utils.misc.topk] is not among the
    sources.  The spec describes the call [topk(indices, k, dim=0,
    largest=False)] as the argsort that brings the combined index sequence
    back to ascending order: the [k] smallest values in ascending order,
    each with the position it had in the input.  Equal values keep their
    input order. *)
Fixpoint insert_by_value (p : nat * nat) (l : list (nat * nat)) : list (nat * nat) :=
  match l with
  | [] => [p]
  | q :: l' => if fst p <=? fst q then p :: l else q :: insert_by_value p l'
  end.

Fixpoint sort_by_value (l : list (nat * nat)) : list (nat * nat) :=
  match l with
  | [] => []
  | p :: l' => insert_by_value p (sort_by_value l')
  end.

Definition topk (x : list nat) (k : nat) : list nat * list nat :=
  let picked := firstn k (sort_by_value (combine x (seq 0 (length x)))) in
  (map fst picked, map snd picked).

(** ** RoIs and level assignment *)

(** One row of the (k, 5) RoI tensor: columns 0 to 4. *)
Record roi : Type := mkRoI {
  batch_index : R;
  x1 : R;
  y1 : R;
  x2 : R;
  y2 : R
}.

Section Extractor.

(** Feature maps and pooled rows are opaque to the router. *)
Variables feat row : Type.

(** What [long] yields where the conversion is undefined. *)
Variable long_undef : Z.

(** Modelled from the spec: [BaseRoIExtractor.roi_rescale] is not among the
    sources.  The spec says it rescales all RoI boxes by the factor,
    uniformly; [rescale_box] is what it does to one box. *)
Variable rescale_box : roi -> R -> roi.

Definition roi_rescale (rois : list roi) (scale_factor : R) : list roi :=
  map (fun r => rescale_box r scale_factor) rois.

(** An RoI layer: called with a feature map and RoIs, it returns the pooled
    rows or raises. *)
Definition roi_layer : Type := feat -> list roi -> result (list row).

Record SingleRoIExtractor : Type := mkExtractor {
  roi_layers : list roi_layer;
  finest_scale : Z
}.

Local Open Scope R_scope.

(** Lines 56-57: [scale], in exact arithmetic. *)
Definition roi_scales (rois : list roi) : list fval :=
  map (fun r => fsqrt (Fin ((x2 r - x1 r) * (y2 r - y1 r)))) rois.

(** Line 58: [target_lvls] before clamping, in exact arithmetic. *)
Definition float_lvls (self : SingleRoIExtractor) (rois : list roi) : list fval :=
  map (fun s => ffloor (flog2
          (fadd_scalar (fdiv_scalar s (IZR (finest_scale self))) (1 / 1000000))))
      (roi_scales rois).

(** Lines 59-60. *)
Definition map_roi_levels (self : SingleRoIExtractor) (rois : list roi)
    (num_levels : Z) : list Z :=
  map (fun t => long long_undef (fclamp t 0 (num_levels - 1)))
      (float_lvls self rois).

Local Close Scope R_scope.

(** ** forward *)

(** Lines 77-87: the loop over [enumerate(zip(feats, self.roi_layers))],
    started at [level] with the lists accumulated so far. *)
Fixpoint level_loop (target_lvls : list Z) (rois : list roi) (level : nat)
    (zipped : list (feat * roi_layer))
    (indices : list (list nat)) (roi_feats : list (list row))
    : result (list (list nat) * list (list row)) :=
  match zipped with
  | [] => Ok (indices, roi_feats)
  | (feat_l, extractor) :: zipped' =>
      let level_indices := nonzero (eq_int target_lvls (Z.of_nat level)) in
      level_rois <- index_select rois level_indices ;;
      let indices := indices ++ [level_indices] in
      let roi_feats :=
        match extractor feat_l level_rois with
        | Ok level_feats => roi_feats ++ [level_feats]
        | Raise _ => roi_feats
        end in
      level_loop target_lvls rois (S level) zipped' indices roi_feats
  end.

(** Lines 70-87: level assignment, optional rescaling and the loop. *)
Definition forward_levels (self : SingleRoIExtractor) (feats : list feat)
    (rois : list roi) (roi_scale_factor : option R)
    : result (list (list nat) * list (list row)) :=
  let num_levels := Z.of_nat (length feats) in
  let target_lvls := map_roi_levels self rois num_levels in
  let rois :=
    match roi_scale_factor with
    | Some f => roi_rescale rois f
    | None => rois
    end in
  level_loop target_lvls rois 0 (combine feats (roi_layers self)) [] [].

(** Lines 88-95: concatenation and reordering. *)
Definition reassemble (indices : list (list nat)) (roi_feats : list (list row))
    : result (list row) :=
  indices <- cat indices ;;
  let k := length indices in
  let '(_, indices) := topk indices k in
  roi_feats <- cat roi_feats ;;
  index_select roi_feats indices.

Definition forward (self : SingleRoIExtractor) (feats : list feat)
    (rois : list roi) (roi_scale_factor : option R) : result (list row) :=
  if length feats =? 1 then
    match roi_layers self, feats with
    | layer0 :: _, feat0 :: _ => layer0 feat0 rois
    | _, _ => Raise IndexError
    end
  else
    '(indices, roi_feats) <- forward_levels self feats rois roi_scale_factor ;;
    reassemble indices roi_feats.

End Extractor.

Unset Implicit Arguments.

(** ** Specification-side definitions *)

Local Open Scope R_scope.

(** Width times height of the box, the argument of the square root. *)
Definition area (r : roi) : R := (x2 r - x1 r) * (y2 r - y1 r).

(** The level formula in the spec's words, over the reals:
    clamp(floor(log2(sqrt(width * height) / finest_scale + 1e-6)),
    0, num_levels - 1). *)
Definition spec_level (finest : Z) (num_levels : Z) (r : roi) : Z :=
  Z.min (Z.max (Zfloor (ln (sqrt (area r) / IZR finest + 1 / 1000000) / ln 2)) 0)
        (num_levels - 1).

Local Close Scope R_scope.

(** Two RoIs with the same box, whatever their batch indices. *)
Definition same_box (r r' : roi) : Prop :=
  x1 r = x1 r' /\ y1 r = y1 r' /\ x2 r = x2 r' /\ y2 r = y2 r'.

Local Open Scope R_scope.

(** Lines 56-59 for one RoI: the chain of tensor operations that
    [map_roi_levels] applies to each row. *)
Definition level_chain (long_undef finest num_levels : Z) (r : roi) : Z :=
  long long_undef
    (fclamp (ffloor (flog2 (fadd_scalar
       (fdiv_scalar (fsqrt (Fin ((x2 r - x1 r) * (y2 r - y1 r)))) (IZR finest))
       (1 / 1000000)))) 0 (num_levels - 1)).

Local Close Scope R_scope.

(** ** What the loop of [forward] computes *)

Definition roi0 : roi := mkRoI 0 0 0 0 0.

(** Line 79: the index list of one level. *)
Definition level_indices_of (lvls : list Z) (level : nat) : list nat :=
  nonzero (eq_int lvls (Z.of_nat level)).

(** Line 81: the RoIs of one level, in input order. *)
Definition level_rois (lvls : list Z) (rois : list roi) (level : nat) : list roi :=
  map (fun i => nth i rois roi0) (level_indices_of lvls level).

(** Lines 83-87: the pooled batches the loop keeps, one per level whose
    layer returned. *)
Fixpoint level_outputs {feat row : Type} (lvls : list Z) (rois : list roi)
    (level : nat) (zipped : list (feat * roi_layer feat row)) : list (list row) :=
  match zipped with
  | [] => []
  | (feat_l, extractor) :: zipped' =>
      match extractor feat_l (level_rois lvls rois level) with
      | Ok level_feats => [level_feats]
      | Raise _ => []
      end ++ level_outputs lvls rois (S level) zipped'
  end.

(** Every assigned level is the index of a pyramid level. *)
Definition levels_in_range (lvls : list Z) (K : nat) : Prop :=
  Forall (fun l => (0 <= l < Z.of_nat K)%Z) lvls.

(** ** Inputs of the layers, in the spec's terms *)

Section RouterSpec.

Variables feat row : Type.
Variable long_undef : Z.
Variable rescale_box : roi -> R -> roi.

(** Lines 72-73: the RoIs the loop works on. *)
Definition forward_rois (rois : list roi) (roi_scale_factor : option R) : list roi :=
  match roi_scale_factor with
  | Some f => roi_rescale rescale_box rois f
  | None => rois
  end.

(** The RoIs [forward] hands to the layer of [level]: all of them on the
    single-level path (line 68), the level's share otherwise (line 84). *)
Definition level_input (self : SingleRoIExtractor feat row) (feats : list feat)
    (rois : list roi) (roi_scale_factor : option R) (level : nat) : list roi :=
  if length feats =? 1 then rois
  else level_rois
         (map_roi_levels long_undef self rois (Z.of_nat (length feats)))
         (forward_rois rois roi_scale_factor) level.

(** Every level's layer returns, and its rows are the pooled features
    [pool_row level r] of the RoIs [r] it was given, in their order. *)
Definition poolers_succeed (self : SingleRoIExtractor feat row) (feats : list feat)
    (rois : list roi) (roi_scale_factor : option R)
    (pool_row : nat -> roi -> row) : Prop :=
  forall level f layer,
    nth_error feats level = Some f ->
    nth_error (roi_layers self) level = Some layer ->
    layer f (level_input self feats rois roi_scale_factor level) =
    Ok (map (pool_row level) (level_input self feats rois roi_scale_factor level)).

(** The box of an RoI as its layer sees it. *)
Definition pooled_box (feats : list feat) (roi_scale_factor : option R) (r : roi) : roi :=
  if length feats =? 1 then r
  else match roi_scale_factor with
       | Some f => rescale_box r f
       | None => r
       end.

(** The shape contract of a layer: as many rows as RoIs. *)
Definition rows_match (layer : roi_layer feat row) : Prop :=
  forall f rs out, layer f rs = Ok out -> length out = length rs.

(** The single-level path in the spec's words: the level-0 pooler called on
    the full RoI set. *)
Definition single_level_pool (self : SingleRoIExtractor feat row) (feats : list feat)
    (rois : list roi) : result (list row) :=
  match nth_error (roi_layers self) 0, nth_error feats 0 with
  | Some pooler, Some feature_map => pooler feature_map rois
  | _, _ => Raise IndexError
  end.

(** Each index below [N] is in the list of exactly one level. *)
Definition each_in_one_level (indices : list (list nat)) (N : nat) : Prop :=
  forall i, i < N ->
    exists level, level < length indices /\ In i (nth level indices []) /\
      forall level', In i (nth level' indices []) -> level' = level.

End RouterSpec.

Arguments level_input {feat row}.
Arguments poolers_succeed {feat row}.
Arguments pooled_box {feat}.
Arguments rows_match {feat row}.
Arguments single_level_pool {feat row}.

(** ** Concrete extractors and RoIs *)

Section Instances.

Local Open Scope R_scope.

Definition small_roi : roi := mkRoI 0 0 0 10 10.
Definition big_roi : roi := mkRoI 0 0 0 112 112.
Definition edge_roi : roi := mkRoI 0 0 0 (111999 / 1000) (111999 / 1000).
(** x2 < x1 *)
Definition flipped_roi : roi := mkRoI 0 10 0 0 10.
(** y2 < y1 *)
Definition inverted_roi : roi := mkRoI 1 0 10 10 0.

(** A rescaling of a box about its centre. *)
Definition scale_about_center (r : roi) (f : R) : roi :=
  let cx := (x1 r + x2 r) / 2 in
  let cy := (y1 r + y2 r) / 2 in
  let w := (x2 r - x1 r) * f in
  let h := (y2 r - y1 r) * f in
  mkRoI (batch_index r) (cx - w / 2) (cy - h / 2) (cx + w / 2) (cy + h / 2).

(** A layer that tags every RoI with the feature map it was pooled from. *)
Definition tag_row (level : nat) (r : roi) : nat * roi := (level, r).

Definition tag_layer : roi_layer nat (nat * roi) :=
  fun f rs => Ok (map (tag_row f) rs).

(** A layer that always raises. *)
Definition broken_layer : roi_layer nat (nat * roi) :=
  fun _ _ => Raise PoolerError.

(** A layer that raises on an empty batch of RoIs. *)
Definition picky_layer : roi_layer nat (nat * roi) :=
  fun f rs =>
    match rs with
    | [] => Raise PoolerError
    | _ :: _ => Ok (map (tag_row f) rs)
    end.

(** A layer that returns every pooled row twice: more rows than RoIs. *)
Definition chatty_layer : roi_layer nat (nat * roi) :=
  fun f rs => Ok (map (tag_row f) (rs ++ rs)).

Definition fpn1 : SingleRoIExtractor nat (nat * roi) := mkExtractor [tag_layer] 56.
Definition fpn2 : SingleRoIExtractor nat (nat * roi) :=
  mkExtractor [tag_layer; tag_layer] 56.
Definition fpn2_broken : SingleRoIExtractor nat (nat * roi) :=
  mkExtractor [tag_layer; broken_layer] 56.
Definition fpn1_picky : SingleRoIExtractor nat (nat * roi) :=
  mkExtractor [picky_layer] 56.
Definition fpn2_picky : SingleRoIExtractor nat (nat * roi) :=
  mkExtractor [picky_layer; picky_layer] 56.
Definition fpn2_chatty : SingleRoIExtractor nat (nat * roi) :=
  mkExtractor [chatty_layer; broken_layer] 56.

End Instances.

(** ** The RoIs a call of [forward] serves *)

Section Served.

Variables feat row : Type.
Variable long_undef : Z.
Variable rescale_box : roi -> R -> roi.

(** The levels the loop of [forward] visits: [zip] stops at the shorter of
    [feats] and [self.roi_layers]. *)
Definition visited_levels (self : SingleRoIExtractor feat row) (feats : list feat) : nat :=
  length (combine feats (roi_layers self)).

(** Whether a level index names one of the first [m] levels. *)
Definition served (m : nat) (l : Z) : bool :=
  ((0 <=? l) && (l <? Z.of_nat m))%Z.

(** The level [forward] assigns to one RoI. *)
Definition roi_level (self : SingleRoIExtractor feat row) (feats : list feat) (r : roi) : Z :=
  level_chain long_undef (finest_scale self) (Z.of_nat (length feats)) r.

(** The RoIs whose level is visited, in input order. *)
Definition served_rois (self : SingleRoIExtractor feat row) (feats : list feat)
    (rois : list roi) : list roi :=
  filter (fun r => served (visited_levels self feats) (roi_level self feats r)) rois.

(** Their pooled features, each pooled at its level from the box its layer
    sees. *)
Definition served_rows (self : SingleRoIExtractor feat row) (feats : list feat)
    (rois : list roi) (roi_scale_factor : option R)
    (pool_row : nat -> roi -> row) : list row :=
  map (fun r => pool_row (Z.to_nat (roi_level self feats r))
                         (pooled_box rescale_box feats roi_scale_factor r))
      (served_rois self feats rois).

(** Every visited level's layer returns the pooled rows of its share, or
    raises on an empty share. *)
Definition poolers_succeed_or_idle (self : SingleRoIExtractor feat row)
    (feats : list feat) (rois : list roi) (roi_scale_factor : option R)
    (pool_row : nat -> roi -> row) : Prop :=
  forall level f layer,
    nth_error feats level = Some f ->
    nth_error (roi_layers self) level = Some layer ->
    layer f (level_input long_undef rescale_box self feats rois roi_scale_factor level) =
      Ok (map (pool_row level)
              (level_input long_undef rescale_box self feats rois roi_scale_factor level))
    \/ (level_input long_undef rescale_box self feats rois roi_scale_factor level = []
        /\ raises (layer f [])).

(** The layer of some visited level returns. *)
Definition some_pooler_returns (self : SingleRoIExtractor feat row)
    (feats : list feat) (rois : list roi) (roi_scale_factor : option R) : Prop :=
  exists level f layer out,
    nth_error feats level = Some f /\
    nth_error (roi_layers self) level = Some layer /\
    layer f (level_input long_undef rescale_box self feats rois roi_scale_factor level)
      = Ok out.

(** No visited level's layer returns. *)
Definition no_pooler_returns (self : SingleRoIExtractor feat row)
    (feats : list feat) (rois : list roi) (roi_scale_factor : option R) : Prop :=
  forall level f layer,
    nth_error feats level = Some f ->
    nth_error (roi_layers self) level = Some layer ->
    raises (layer f (level_input long_undef rescale_box self feats rois
                       roi_scale_factor level)).

(** Every layer returns the pooled rows of whatever RoIs it is given. *)
Definition poolers_total (self : SingleRoIExtractor feat row) (feats : list feat)
    (pool_row : nat -> roi -> row) : Prop :=
  forall level f layer rs,
    nth_error feats level = Some f ->
    nth_error (roi_layers self) level = Some layer ->
    layer f rs = Ok (map (pool_row level) rs).

End Served.

Arguments visited_levels {feat row}.
Arguments roi_level {feat row}.
Arguments served_rois {feat row}.
Arguments served_rows {feat row}.
Arguments poolers_succeed_or_idle {feat row}.
Arguments some_pooler_returns {feat row}.
Arguments no_pooler_returns {feat row}.
Arguments poolers_total {feat row}.

(** More concrete extractors. *)
Definition fpn2_all_broken : SingleRoIExtractor nat (nat * roi) :=
  mkExtractor [broken_layer; broken_layer] 56.
Definition fpn2_zero_scale : SingleRoIExtractor nat (nat * roi) :=
  mkExtractor [tag_layer; tag_layer] 0.
Definition point_roi : roi := mkRoI 0 5 5 5 5.

(** * Configuration utilities

    A shallow embedding of functions of
    [mmdet/apis/ote/apis/detection/config_utils.py].  A config object is
    modelled by the keys the function at hand reads or writes; a key that
    may be missing is an [option].  An attribute read on a missing key
    raises [AttributeError].  A Python float is a real number; overflow
    raises as it does in Python, and the quotient of two integers is rounded
    to the nearest float.  The exponential and the two products of line 129
    are taken exact. *)

Module ConfigUtils.

Local Open Scope string_scope.

Inductive py_error : Type :=
  | AttributeError
  | ValueError
  | OverflowError.

Inductive outcome (A : Type) : Type :=
  | Returns (a : A)
  | Raises (e : py_error).

Arguments Returns {A} a.
Arguments Raises {A} e.

Definition and_then {A B : Type} (m : outcome A) (k : A -> outcome B) : outcome B :=
  match m with
  | Returns a => k a
  | Raises e => Raises e
  end.

Notation "x <~ m ;; k" := (and_then m (fun x => k))
  (at level 61, m at next level, right associativity).

(** [needle in hay] for Python strings: [needle] occurs in [hay]. *)
Fixpoint str_contains (needle hay : String.string) : bool :=
  if String.prefix needle hay then true
  else match hay with
       | String.EmptyString => false
       | String.String _ hay' => str_contains needle hay'
       end.

(** [round(x)] for a float: the nearest integer, ties to the even one. *)
Definition py_round (x : R) : Z :=
  let n := Zfloor x in
  if Rlt_dec (x - IZR n) (1 / 2) then n
  else if Rlt_dec (1 / 2) (x - IZR n) then (n + 1)%Z
  else if Z.even n then n else (n + 1)%Z.

(** A value of magnitude 2^1024 - 2^970 or more is beyond the largest
    float: it rounds to an infinity. *)
Definition float_overflow : R := IZR (2 ^ 1024 - 2 ^ 970).

(** Rounding to the nearest float (binary64), ties to even: the nearest
    multiple of 2^(e - 52), where 2^e <= |x| < 2^(e + 1) and e is at least
    -1022, the exponent of the subnormal numbers. *)
Definition float_exponent (x : R) : Z :=
  Z.max (Zfloor (ln (Rabs x) / ln 2)) (-1022).

Definition ulp (x : R) : R := powerRZ 2 (float_exponent x - 52).

Definition round_float (x : R) : R := (IZR (py_round (x / ulp x)) * ulp x)%R.

(** [float(n)] for an integer, as in [decay * num_samples]: an
    [OverflowError] for an integer too large for a float. *)
Definition int_to_float (n : Z) : outcome R :=
  if Rle_dec float_overflow (Rabs (IZR n)) then Raises OverflowError
  else Returns (IZR n).

(** [math.exp(x)]: an [OverflowError] when the result is beyond the largest
    float, that is for [x] above [exp_max_arg], the largest float whose
    exponential is finite (0x1.62e42fefa39efp+9, about 709.78). *)
Definition exp_max_arg : R := (6243314768165359 / 8796093022208)%R.

Definition math_exp (x : R) : outcome R :=
  if Rlt_dec exp_max_arg x then Raises OverflowError else Returns (exp x).

(** [round(x)] for the float of a product that may have overflowed: an
    [OverflowError] for an infinity. *)
Definition round_product (x : R) : outcome Z :=
  if Rle_dec float_overflow (Rabs x) then Raises OverflowError
  else Returns (py_round x).

(** [a / b] for integers, [b] not 0: the quotient rounded to the nearest
    float, an [OverflowError] when it is too large for one. *)
Definition int_true_div (a b : Z) : outcome R :=
  if Rle_dec float_overflow (Rabs (IZR a / IZR b)) then Raises OverflowError
  else Returns (round_float (IZR a / IZR b)).

(** [config.runner]: [type], [max_epochs]. *)
Record runner_cfg : Type := mkRunner {
  runner_type : String.string;
  max_epochs : option Z
}.

(** [config.data.train]: [type], [adaptive_repeat_times], [times]. *)
Record train_cfg : Type := mkTrain {
  train_type : String.string;
  adaptive_repeat_times : option bool;
  times : option Z
}.

Record config : Type := mkConfig {
  data_train : train_cfg;
  runner : runner_cfg
}.

(** Lines 34-35. *)
Definition is_epoch_based_runner (runner_config : runner_cfg) : bool :=
  str_contains "Epoch" (runner_type runner_config).

Definition default_decay : R := (- 2 / 1000)%R.
Definition default_factor : R := 30%R.

(** Lines 110-134.  [getattr(config.data.train, 'adaptive_repeat_times',
    False)] is [false] for a missing key. *)
Definition patch_adaptive_repeat_dataset (cfg : config) (num_samples : Z)
    (decay factor : R) : outcome config :=
  if (String.eqb (train_type (data_train cfg)) "RepeatDataset"
      && match adaptive_repeat_times (data_train cfg) with
         | Some flag => flag
         | None => false
         end)%bool
  then
    if is_epoch_based_runner (runner cfg) then
      match max_epochs (runner cfg) with
      | None => Raises AttributeError
      | Some cur_epoch =>
          samples <~ int_to_float num_samples ;;
          grown <~ math_exp (decay * samples) ;;
          rounded <~ round_product (grown * factor) ;;
          let new_repeat := Z.max rounded 1 in
          quotient <~ int_true_div cur_epoch new_repeat ;;
          let new_epoch := Zceil quotient in
          if (new_epoch =? 1)%Z then Returns cfg
          else
            Returns
              (mkConfig
                 (mkTrain (train_type (data_train cfg))
                          (adaptive_repeat_times (data_train cfg))
                          (Some new_repeat))
                 (mkRunner (runner_type (runner cfg)) (Some new_epoch)))
      end
    else Returns cfg
  else Returns cfg.

(** A dictionary: keys are unique, in insertion order. *)
Definition dict (V : Type) : Type := list (String.string * V).

Definition dict_has {V : Type} (key : String.string) (d : dict V) : bool :=
  existsb (fun kv => String.eqb (fst kv) key) d.

Fixpoint dict_get {V : Type} (key : String.string) (d : dict V) : option V :=
  match d with
  | [] => None
  | (k, v) :: d' => if String.eqb k key then Some v else dict_get key d'
  end.

(** [del d[key]] *)
Definition dict_del {V : Type} (key : String.string) (d : dict V) : dict V :=
  filter (fun kv => negb (String.eqb (fst kv) key)) d.

(** The argument of [remove_from_config]: an mmcv [Config] (with its
    [_cfg_dict]), a [ConfigDict], or any other container, of which only the
    members matter. *)
Inductive config_like (V : Type) : Type :=
  | IsConfig (cfg_dict : dict V)
  | IsConfigDict (d : dict V)
  | IsOther (members : list String.string).

Arguments IsConfig {V} cfg_dict.
Arguments IsConfigDict {V} d.
Arguments IsOther {V} members.

(** [key in config] *)
Definition has_key {V : Type} (key : String.string) (c : config_like V) : bool :=
  match c with
  | IsConfig d => dict_has key d
  | IsConfigDict d => dict_has key d
  | IsOther members => existsb (String.eqb key) members
  end.

(** [config[key]] where the container is a dictionary. *)
Definition get_key {V : Type} (key : String.string) (c : config_like V) : option V :=
  match c with
  | IsConfig d => dict_get key d
  | IsConfigDict d => dict_get key d
  | IsOther _ => None
  end.

(** Lines 268-275. *)
Definition remove_from_config {V : Type} (c : config_like V) (key : String.string)
    : outcome (config_like V) :=
  if has_key key c then
    match c with
    | IsConfig d => Returns (IsConfig (dict_del key d))
    | IsConfigDict d => Returns (IsConfigDict (dict_del key d))
    | IsOther _ => Raises ValueError
    end
  else Returns c.

(** A step of a data pipeline: its [type], its [to_rgb] flag and its
    [transforms], the keys [patch_color_conversion] works on. *)
Inductive pipeline_step : Type :=
  | Step (type : String.string) (to_rgb : option bool)
         (transforms : option (list pipeline_step)).

(** Lines 239-249, nested in [patch_datasets]: the steps are patched in
    place, so the pipeline that results is returned.  The steps of a
    pipeline are distinct objects, as they are in a config read from a
    file. *)
Fixpoint patch_color_step (step : pipeline_step) : outcome pipeline_step :=
  match step with
  | Step type to_rgb transforms =>
      if String.eqb type "Normalize" then
        let to_rgb := match to_rgb with Some flag => flag | None => false end in
        Returns (Step type (Some (negb to_rgb)) transforms)
      else if String.eqb type "MultiScaleFlipAug" then
        match transforms with
        | None => Raises AttributeError
        | Some steps =>
            let fix patch_all (pipeline : list pipeline_step)
                : outcome (list pipeline_step) :=
              match pipeline with
              | [] => Returns []
              | s :: rest =>
                  match patch_color_step s with
                  | Raises e => Raises e
                  | Returns s' =>
                      match patch_all rest with
                      | Raises e => Raises e
                      | Returns rest' => Returns (s' :: rest')
                      end
                  end
              end in
            match patch_all steps with
            | Raises e => Raises e
            | Returns steps' => Returns (Step type to_rgb (Some steps'))
            end
        end
      else Returns step
  end.

Fixpoint patch_color_conversion (pipeline : list pipeline_step)
    : outcome (list pipeline_step) :=
  match pipeline with
  | [] => Returns []
  | s :: rest =>
      match patch_color_step s with
      | Raises e => Raises e
      | Returns s' =>
          match patch_color_conversion rest with
          | Raises e => Raises e
          | Returns rest' => Returns (s' :: rest')
          end
      end
  end.

(** Truth value of a [to_rgb] entry; a missing entry counts as [False]. *)
Definition truthy (flag : option bool) : bool :=
  match flag with Some b => b | None => false end.

(** The [to_rgb] entries the patch reaches: those of the [Normalize] steps
    of the pipeline and of the [transforms] of its [MultiScaleFlipAug]
    steps, at any depth, in pipeline order. *)
Fixpoint reached_flags_step (step : pipeline_step) : list (option bool) :=
  match step with
  | Step type to_rgb transforms =>
      if String.eqb type "Normalize" then [to_rgb]
      else if String.eqb type "MultiScaleFlipAug" then
        match transforms with
        | None => []
        | Some steps =>
            (fix reached_all (pipeline : list pipeline_step) : list (option bool) :=
               match pipeline with
               | [] => []
               | s :: rest => reached_flags_step s ++ reached_all rest
               end) steps
        end
      else []
  end.

Definition reached_flags (pipeline : list pipeline_step) : list (option bool) :=
  flat_map reached_flags_step pipeline.

(** The pipeline with those entries blanked: all that the patch has no
    business with, the types of the steps at any depth included. *)
Fixpoint without_flags_step (step : pipeline_step) : pipeline_step :=
  match step with
  | Step type to_rgb transforms =>
      if String.eqb type "Normalize" then Step type None transforms
      else if String.eqb type "MultiScaleFlipAug" then
        Step type to_rgb
          match transforms with
          | None => None
          | Some steps =>
              Some ((fix blank_all (pipeline : list pipeline_step)
                       : list pipeline_step :=
                       match pipeline with
                       | [] => []
                       | s :: rest => without_flags_step s :: blank_all rest
                       end) steps)
          end
      else step
  end.

Definition without_flags (pipeline : list pipeline_step) : list pipeline_step :=
  map without_flags_step pipeline.

(** What the patch does to a [to_rgb] entry it reaches. *)
Definition negated (flag : option bool) : option bool :=
  Some (negb (truthy flag)).

(** A step and what a pass makes of it: the reached entries negated, the
    rest as it was. *)
Definition flipped (s s1 : pipeline_step) : Prop :=
  reached_flags_step s1 = map negated (reached_flags_step s) /\
  without_flags_step s1 = without_flags_step s.

Definition step_type (s : pipeline_step) : String.string :=
  match s with Step type _ _ => type end.

(** A step that a pass turns into a step which the next pass turns back. *)
Definition settles (s1 : pipeline_step) : Prop :=
  exists s2, patch_color_step s1 = Returns s2 /\ patch_color_step s2 = Returns s1.

End ConfigUtils.

(** Concrete configs. *)
Definition repeat_config : ConfigUtils.config :=
  ConfigUtils.mkConfig
    (ConfigUtils.mkTrain "RepeatDataset"%string (Some true) (Some 5%Z))
    (ConfigUtils.mkRunner "EpochBasedRunner"%string (Some 100%Z)).

Definition repeat_config_patched : ConfigUtils.config :=
  ConfigUtils.mkConfig
    (ConfigUtils.mkTrain "RepeatDataset"%string (Some true) (Some 1%Z))
    (ConfigUtils.mkRunner "EpochBasedRunner"%string (Some 100%Z)).

(** A concrete dictionary and a concrete pipeline. *)
Definition sample_cfg_dict : ConfigUtils.config_like nat :=
  ConfigUtils.IsConfigDict
    [("type"%string, 1); ("ann_file"%string, 2); ("img_prefix"%string, 3)].

Definition sample_cfg_dict_removed : ConfigUtils.config_like nat :=
  ConfigUtils.IsConfigDict [("type"%string, 1); ("img_prefix"%string, 3)].

Definition sample_pipeline : list ConfigUtils.pipeline_step :=
  [ConfigUtils.Step "LoadImageFromFile"%string None None;
   ConfigUtils.Step "MultiScaleFlipAug"%string None
     (Some [ConfigUtils.Step "Resize"%string None None;
            ConfigUtils.Step "Normalize"%string None None]);
   ConfigUtils.Step "Normalize"%string (Some true) None].

Definition sample_pipeline_patched : list ConfigUtils.pipeline_step :=
  [ConfigUtils.Step "LoadImageFromFile"%string None None;
   ConfigUtils.Step "MultiScaleFlipAug"%string None
     (Some [ConfigUtils.Step "Resize"%string None None;
            ConfigUtils.Step "Normalize"%string (Some true) None]);
   ConfigUtils.Step "Normalize"%string (Some false) None].

(** * Proofs *)

(** ** The tensor primitives at work *)

Example index_select_run :
  index_select [10; 20; 30] [2; 0; 0] = Ok [30; 10; 10].
Proof. reflexivity. Qed.

Example index_select_out_of_bounds :
  index_select [10; 20; 30] [1; 3] = Raise IndexError.
Proof. reflexivity. Qed.

Example level_indices_run :
  nonzero (eq_int [1; 0; 1; 2]%Z 1%Z) = [0; 2].
Proof. reflexivity. Qed.

Example topk_run :
  topk [1; 3; 0; 2] 4 = ([0; 1; 2; 3], [2; 0; 3; 1]).
Proof. reflexivity. Qed.

Example reassemble_run :
  reassemble [[1; 3]; [0; 2]] [[11; 13]; [10; 12]] = Ok [10; 11; 12; 13].
Proof. reflexivity. Qed.

Example reassemble_missing_level :
  reassemble [[1; 3]; [0; 2]] [[11; 13]] = Raise IndexError.
Proof. reflexivity. Qed.

(** ** Numeric lemmas *)

Section LevelFacts.

Local Open Scope R_scope.

Lemma Rmax_IZR (a b : Z) : Rmax (IZR a) (IZR b) = IZR (Z.max a b).
Proof.
  unfold Rmax. destruct (Rle_dec (IZR a) (IZR b)) as [H | H].
  - apply le_IZR in H. now rewrite Z.max_r.
  - assert (b < a)%Z by (apply lt_IZR; lra). rewrite Z.max_l by lia. reflexivity.
Qed.

Lemma Rmin_IZR (a b : Z) : Rmin (IZR a) (IZR b) = IZR (Z.min a b).
Proof.
  unfold Rmin. destruct (Rle_dec (IZR a) (IZR b)) as [H | H].
  - apply le_IZR in H. now rewrite Z.min_l.
  - assert (b < a)%Z by (apply lt_IZR; lra). rewrite Z.min_r by lia. reflexivity.
Qed.

Lemma Ztrunc_IZR (z : Z) : Ztrunc (IZR z) = z.
Proof.
  unfold Ztrunc. destruct (Rlt_dec (IZR z) 0).
  - unfold Zceil. rewrite ZfloorNZ. lia.
  - apply ZfloorZ.
Qed.

Lemma fsqrt_nonneg (p : R) : 0 <= p -> fsqrt (Fin p) = Fin (sqrt p).
Proof.
  intros Hp. unfold fsqrt. destruct (Rlt_dec p 0); [lra | reflexivity].
Qed.

Lemma fsqrt_neg (p : R) : p < 0 -> fsqrt (Fin p) = NaN.
Proof.
  intros Hp. unfold fsqrt. destruct (Rlt_dec p 0); [reflexivity | lra].
Qed.

Lemma flog2_pos (v : R) : 0 < v -> flog2 (Fin v) = Fin (ln v / ln 2).
Proof.
  intros Hv. unfold flog2.
  destruct (Rlt_dec v 0); [lra |].
  destruct (Req_dec_T v 0); [lra | reflexivity].
Qed.

Lemma fdiv_scalar_pos (x d : R) : 0 < d -> fdiv_scalar (Fin x) d = Fin (x / d).
Proof.
  intros Hd. unfold fdiv_scalar. destruct (Req_dec_T d 0); [lra | reflexivity].
Qed.

Lemma fclamp_int (z lo hi : Z) :
  fclamp (Fin (IZR z)) lo hi = Fin (IZR (Z.min (Z.max z lo) hi)).
Proof. unfold fclamp. now rewrite Rmax_IZR, Rmin_IZR. Qed.


Lemma map_roi_levels_chain (feat row : Type) (u : Z)
    (self : SingleRoIExtractor feat row) rois K :
  map_roi_levels u self rois K = map (level_chain u (finest_scale self) K) rois.
Proof.
  unfold map_roi_levels, float_lvls, roi_scales. rewrite !map_map. reflexivity.
Qed.

Lemma level_chain_wellformed (u finest K : Z) (r : roi) :
  0 <= area r -> (0 < finest)%Z ->
  level_chain u finest K r = spec_level finest K r.
Proof.
  intros Ha Hf. unfold level_chain, spec_level. fold (area r).
  assert (Hfr : 0 < IZR finest) by now apply IZR_lt.
  rewrite fsqrt_nonneg by assumption.
  rewrite fdiv_scalar_pos by assumption. cbn [fadd_scalar].
  assert (Hs : 0 <= sqrt (area r) / IZR finest).
  { apply Rmult_le_pos; [apply sqrt_pos |]. left. now apply Rinv_0_lt_compat. }
  rewrite flog2_pos by lra. cbn [ffloor].
  rewrite fclamp_int. cbn [long]. apply Ztrunc_IZR.
Qed.

Lemma level_chain_malformed (u finest K : Z) (r : roi) :
  area r < 0 -> level_chain u finest K r = u.
Proof.
  intros Ha. unfold level_chain. fold (area r).
  rewrite fsqrt_neg by assumption. reflexivity.
Qed.

End LevelFacts.

(** ** Tensor lemmas *)

Section TensorFacts.

Context {A : Type}.

Lemma index_select_in_range (t : list A) (d : A) (idx : list nat) :
  Forall (fun i => i < length t) idx ->
  index_select t idx = Ok (map (fun i => nth i t d) idx).
Proof.
  induction 1 as [| i idx Hi _ IH]; cbn; [reflexivity |].
  rewrite (nth_error_nth' t d Hi), IH. reflexivity.
Qed.

Lemma index_select_out_of_range (t : list A) (idx : list nat) (i : nat) :
  In i idx -> length t <= i -> raises (index_select t idx).
Proof.
  intros Hin Hle. induction idx as [| j idx IH]; [contradiction |].
  cbn. destruct (nth_error t j) as [a |] eqn:Hj; [| now exists IndexError].
  destruct Hin as [-> | Hin].
  - apply nth_error_None in Hle. congruence.
  - destruct (IH Hin) as [e He]. rewrite He. now exists e.
Qed.

Lemma index_select_map {B : Type} (h : B -> A) (t : list A)
    (pos : B -> nat) (l : list B) :
  Forall (fun b => nth_error t (pos b) = Some (h b)) l ->
  index_select t (map pos l) = Ok (map h l).
Proof.
  induction 1 as [| b l Hb _ IH]; cbn; [reflexivity |].
  rewrite Hb, IH. reflexivity.
Qed.

Lemma index_select_nil (t : list A) : index_select t [] = Ok [].
Proof. reflexivity. Qed.

End TensorFacts.

Section NonzeroFacts.

Lemma in_nonzero_from (t : list Z) (i j : nat) :
  In j (nonzero_from i t) <->
  i <= j /\ exists x, nth_error t (j - i) = Some x /\ x <> 0%Z.
Proof.
  revert i. induction t as [| x t IH]; intros i; cbn.
  - split; [contradiction | intros [_ [y [Hy _]]]].
    destruct (j - i); discriminate.
  - destruct (Z.eqb_spec x 0) as [-> | Hx]; cbn; rewrite ?IH.
    + split.
      * intros [Hle [y [Hy Hne]]]. split; [lia |]. exists y. split; [| assumption].
        replace (j - i) with (S (j - S i)) by lia. exact Hy.
      * intros [Hle [y [Hy Hne]]].
        destruct (j - i) as [| n] eqn:Hji; cbn in Hy; [congruence |].
        split; [lia |]. exists y. split; [| assumption].
        replace (j - S i) with n by lia. exact Hy.
    + split.
      * intros [<- | [Hle [y [Hy Hne]]]].
        { split; [lia |]. exists x. rewrite Nat.sub_diag. now split. }
        split; [lia |]. exists y. split; [| assumption].
        replace (j - i) with (S (j - S i)) by lia. exact Hy.
      * intros [Hle [y [Hy Hne]]].
        destruct (j - i) as [| n] eqn:Hji; cbn in Hy.
        { left. lia. }
        right. split; [lia |]. exists y. split; [| assumption].
        replace (j - S i) with n by lia. exact Hy.
Qed.

Lemma NoDup_nonzero_from (t : list Z) (i : nat) : NoDup (nonzero_from i t).
Proof.
  revert i. induction t as [| x t IH]; intros i; cbn; [constructor |].
  destruct (x =? 0)%Z; [apply IH |].
  constructor; [| apply IH].
  rewrite in_nonzero_from. lia.
Qed.

(** Membership in the index list of one level. *)
Lemma in_level_indices (lvls : list Z) (v : Z) (j : nat) :
  In j (nonzero (eq_int lvls v)) <-> nth_error lvls j = Some v.
Proof.
  unfold nonzero, eq_int. rewrite in_nonzero_from, Nat.sub_0_r.
  rewrite nth_error_map. split.
  - intros [_ [x [Hx Hne]]].
    destruct (nth_error lvls j) as [y |]; cbn in Hx; [| discriminate].
    destruct (Z.eqb_spec y v); congruence.
  - intros ->. split; [lia |]. cbn. rewrite Z.eqb_refl. now exists 1%Z.
Qed.

Lemma level_indices_in_range (lvls : list Z) (v : Z) :
  Forall (fun i => i < length lvls) (nonzero (eq_int lvls v)).
Proof.
  apply Forall_forall. intros j Hj. apply in_level_indices in Hj.
  apply nth_error_Some. congruence.
Qed.

End NonzeroFacts.

(** ** The argsort of [topk] *)

Section TopkFacts.

Lemma insert_by_value_perm (p : nat * nat) (l : list (nat * nat)) :
  Permutation (insert_by_value p l) (p :: l).
Proof.
  induction l as [| q l IH]; cbn; [reflexivity |].
  destruct (fst p <=? fst q); [reflexivity |].
  rewrite IH. apply perm_swap.
Qed.

Lemma sort_by_value_perm (l : list (nat * nat)) :
  Permutation (sort_by_value l) l.
Proof.
  induction l as [| p l IH]; cbn; [reflexivity |].
  rewrite insert_by_value_perm. now constructor.
Qed.

Lemma insert_by_value_sorted (p : nat * nat) (l : list (nat * nat)) :
  StronglySorted le (map fst l) ->
  StronglySorted le (map fst (insert_by_value p l)).
Proof.
  induction l as [| q l IH]; cbn; intros Hs.
  - repeat constructor.
  - destruct (Nat.leb_spec (fst p) (fst q)) as [Hle | Hgt]; cbn.
    + constructor; [assumption |].
      apply StronglySorted_inv in Hs as [_ Hall].
      constructor; [assumption |].
      eapply Forall_impl; [| exact Hall]. cbn. lia.
    + apply StronglySorted_inv in Hs as [Hs Hall].
      constructor; [now apply IH |].
      apply Forall_forall. intros v Hv.
      apply (Permutation_in _ (Permutation_map fst (insert_by_value_perm p l))) in Hv.
      destruct Hv as [<- | Hv]; [lia |].
      rewrite Forall_forall in Hall. now apply Hall.
Qed.

Lemma sort_by_value_sorted (l : list (nat * nat)) :
  StronglySorted le (map fst (sort_by_value l)).
Proof.
  induction l as [| p l IH]; cbn; [constructor |].
  now apply insert_by_value_sorted.
Qed.

Lemma seq_strongly_sorted (n s : nat) : StronglySorted le (seq s n).
Proof.
  revert s. induction n as [| n IH]; intros s; cbn; constructor; [apply IH |].
  apply Forall_forall. intros j Hj. apply in_seq in Hj. lia.
Qed.

Lemma sorted_perm_unique (l l' : list nat) :
  StronglySorted le l -> StronglySorted le l' -> Permutation l l' -> l = l'.
Proof.
  revert l'. induction l as [| a l IH]; intros l' Hs Hs' Hp.
  - now apply Permutation_nil in Hp.
  - destruct l' as [| b l'].
    { apply Permutation_sym, Permutation_nil in Hp. discriminate. }
    apply StronglySorted_inv in Hs as [Hs Ha].
    apply StronglySorted_inv in Hs' as [Hs' Hb].
    rewrite Forall_forall in Ha, Hb.
    assert (a = b) as <-.
    { assert (Hab : In a (b :: l')) by (apply (Permutation_in _ Hp); now left).
      assert (Hba : In b (a :: l))
        by (apply (Permutation_in _ (Permutation_sym Hp)); now left).
      destruct Hab as [-> | Hab]; [reflexivity |].
      destruct Hba as [-> | Hba]; [reflexivity |].
      specialize (Ha _ Hba). specialize (Hb _ Hab). lia. }
    f_equal. apply IH; try assumption.
    now apply Permutation_cons_inv in Hp.
Qed.

Lemma map_fst_combine_seq {A : Type} (l : list A) (s : nat) :
  map fst (combine l (seq s (length l))) = l.
Proof.
  revert s. induction l as [| a l IH]; intros s; cbn; [reflexivity |].
  now rewrite IH.
Qed.

Lemma map_snd_combine_seq {A : Type} (l : list A) (s : nat) :
  map snd (combine l (seq s (length l))) = seq s (length l).
Proof.
  revert s. induction l as [| a l IH]; intros s; cbn; [reflexivity |].
  now rewrite IH.
Qed.

Lemma combine_seq_lookup {A : Type} (l : list A) (s : nat) :
  Forall (fun pr => s <= snd pr /\ nth_error l (snd pr - s) = Some (fst pr))
         (combine l (seq s (length l))).
Proof.
  revert s. induction l as [| a l IH]; intros s; cbn; constructor.
  - cbn. rewrite Nat.sub_diag. split; [lia | reflexivity].
  - eapply Forall_impl; [| apply (IH (S s))].
    intros [v p]; cbn. intros [Hle Hnth]. split; [lia |].
    replace (p - s) with (S (p - S s)) by lia. exact Hnth.
Qed.

(** With [k] the length of the input, [topk] is a full argsort. *)
Lemma topk_argsort (x : list nat) :
  exists sorted : list (nat * nat),
    topk x (length x) = (map fst sorted, map snd sorted) /\
    Permutation (map fst sorted) x /\
    StronglySorted le (map fst sorted) /\
    Permutation (map snd sorted) (seq 0 (length x)) /\
    Forall (fun pr => nth_error x (snd pr) = Some (fst pr)) sorted.
Proof.
  set (pairs := combine x (seq 0 (length x))).
  exists (sort_by_value pairs).
  assert (Hlen : length (sort_by_value pairs) = length x).
  { rewrite (Permutation_length (sort_by_value_perm pairs)).
    unfold pairs. rewrite length_combine, length_seq. lia. }
  split; [| split; [| split; [| split]]].
  - unfold topk. fold pairs. rewrite <- Hlen, firstn_all. reflexivity.
  - rewrite (Permutation_map fst (sort_by_value_perm pairs)).
    unfold pairs. now rewrite map_fst_combine_seq.
  - apply sort_by_value_sorted.
  - rewrite (Permutation_map snd (sort_by_value_perm pairs)).
    unfold pairs. now rewrite map_snd_combine_seq.
  - eapply Permutation_Forall; [apply Permutation_sym, sort_by_value_perm |].
    eapply Forall_impl; [| apply (combine_seq_lookup x 0)].
    intros [v p]; cbn. rewrite Nat.sub_0_r. tauto.
Qed.

End TopkFacts.


Section RouterFacts.

Variables feat row : Type.
Variable long_undef : Z.
Variable rescale_box : roi -> R -> roi.

Lemma reassemble_restores (indices : list (list nat)) (roi_feats : list (list row))
    (g : nat -> row) (N : nat) :
  indices <> [] -> roi_feats <> [] ->
  concat roi_feats = map g (concat indices) ->
  Permutation (concat indices) (seq 0 N) ->
  reassemble indices roi_feats = Ok (map g (seq 0 N)).
Proof.
  intros Hi Hf Hrows Hperm. unfold reassemble, cat.
  destruct indices as [| i0 indices]; [congruence |].
  destruct roi_feats as [| f0 roi_feats]; [congruence |].
  cbn [bind]. set (P := concat (i0 :: indices)) in *.
  destruct (topk_argsort P) as [sorted [Htopk [Hvals [Hsorted [_ Hlook]]]]].
  rewrite Htopk, Hrows.
  rewrite (index_select_map (fun pr => g (fst pr)) (map g P) snd sorted).
  - rewrite <- (map_map fst g). f_equal. f_equal.
    apply sorted_perm_unique; [assumption | apply seq_strongly_sorted |].
    now rewrite Hvals.
  - eapply Forall_impl; [| exact Hlook].
    intros [v p]; cbn. intros Hp. rewrite nth_error_map, Hp. reflexivity.
Qed.

Lemma reassemble_short (indices : list (list nat)) (roi_feats : list (list row)) :
  indices <> [] ->
  length (concat roi_feats) < length (concat indices) ->
  raises (reassemble indices roi_feats).
Proof.
  intros Hi Hlt. unfold reassemble, cat.
  destruct indices as [| i0 indices]; [congruence |].
  cbn [bind]. set (P := concat (i0 :: indices)) in *.
  destruct (topk_argsort P) as [sorted [Htopk [_ [_ [Hpos _]]]]].
  rewrite Htopk.
  destruct roi_feats as [| f0 roi_feats]; [now exists RuntimeError |].
  cbn [bind]. apply index_select_out_of_range with (i := length P - 1); [| lia].
  apply (Permutation_in _ (Permutation_sym Hpos)). apply in_seq. lia.
Qed.

Lemma level_loop_eq (lvls : list Z) (rois : list roi) :
  length rois = length lvls ->
  forall (zipped : list (feat * roi_layer feat row)) level indices roi_feats,
    level_loop lvls rois level zipped indices roi_feats =
    Ok (indices ++ map (level_indices_of lvls) (seq level (length zipped)),
        roi_feats ++ level_outputs lvls rois level zipped).
Proof.
  intros Hlen. induction zipped as [| [f ext] zipped IH]; intros level I F.
  - cbn. now rewrite !app_nil_r.
  - cbn [level_loop level_outputs length seq map].
    fold (level_indices_of lvls level).
    rewrite (index_select_in_range rois roi0)
      by (rewrite Hlen; apply level_indices_in_range).
    cbn [bind]. fold (level_rois lvls rois level).
    rewrite IH. destruct (ext f (level_rois lvls rois level)); cbn [app];
      now rewrite <- !app_assoc.
Qed.

Lemma length_map_roi_levels (self : SingleRoIExtractor feat row) rois K :
  length (map_roi_levels long_undef self rois K) = length rois.
Proof.
  unfold map_roi_levels, float_lvls, roi_scales. now rewrite !length_map.
Qed.

End RouterFacts.


(** ** The per-level index lists *)

Section PartitionFacts.

Variable lvls : list Z.

Lemma in_level_indices_of (level j : nat) :
  In j (level_indices_of lvls level) <-> nth_error lvls j = Some (Z.of_nat level).
Proof. apply in_level_indices. Qed.

Lemma in_concat_levels (levels : list nat) (j : nat) :
  In j (concat (map (level_indices_of lvls) levels)) <->
  exists level, In level levels /\ nth_error lvls j = Some (Z.of_nat level).
Proof.
  rewrite in_concat. split.
  - intros [idx [Hidx Hj]]. apply in_map_iff in Hidx as [level [<- Hl]].
    exists level. split; [assumption |]. now apply in_level_indices_of.
  - intros [level [Hl Hj]]. exists (level_indices_of lvls level). split.
    + now apply in_map.
    + now apply in_level_indices_of.
Qed.

Lemma NoDup_concat_levels (s n : nat) :
  NoDup (concat (map (level_indices_of lvls) (seq s n))).
Proof.
  revert s. induction n as [| n IH]; intros s; cbn; [constructor |].
  apply NoDup_app; [apply NoDup_nonzero_from | apply IH |].
  intros j Hj Hj'. apply in_level_indices_of in Hj.
  apply in_concat_levels in Hj' as [level [Hl Hj']].
  apply in_seq in Hl. rewrite Hj in Hj'. injection Hj' as Heq. lia.
Qed.

Lemma concat_levels_perm (K : nat) :
  levels_in_range lvls K ->
  Permutation (concat (map (level_indices_of lvls) (seq 0 K)))
              (seq 0 (length lvls)).
Proof.
  intros Hr. apply NoDup_Permutation;
    [apply NoDup_concat_levels | apply seq_NoDup |].
  intros j. rewrite in_concat_levels, in_seq. split.
  - intros [level [_ Hj]]. split; [lia |]. apply nth_error_Some. congruence.
  - intros [_ Hj]. destruct (nth_error lvls j) as [v |] eqn:Hv.
    2: { apply nth_error_None in Hv. lia. }
    unfold levels_in_range in Hr. rewrite Forall_forall in Hr.
    specialize (Hr v (nth_error_In _ _ Hv)).
    exists (Z.to_nat v). split; [apply in_seq; lia |].
    f_equal. lia.
Qed.

Lemma nth_level_indices (K level : nat) :
  nth level (map (level_indices_of lvls) (seq 0 K)) [] =
  if level <? K then level_indices_of lvls level else [].
Proof.
  destruct (Nat.ltb_spec level K) as [Hlt | Hge].
  - rewrite (nth_indep _ [] (level_indices_of lvls 0))
      by (now rewrite length_map, length_seq).
    rewrite map_nth, seq_nth by assumption. reflexivity.
  - apply nth_overflow. now rewrite length_map, length_seq.
Qed.

Lemma each_in_one_level_levels (K : nat) :
  levels_in_range lvls K ->
  each_in_one_level (map (level_indices_of lvls) (seq 0 K)) (length lvls).
Proof.
  intros Hr i Hi.
  destruct (nth_error lvls i) as [v |] eqn:Hv.
  2: { apply nth_error_None in Hv. lia. }
  unfold levels_in_range in Hr. rewrite Forall_forall in Hr.
  specialize (Hr v (nth_error_In _ _ Hv)).
  exists (Z.to_nat v). rewrite length_map, length_seq.
  split; [lia |]. split.
  - rewrite nth_level_indices.
    destruct (Nat.ltb_spec (Z.to_nat v) K); [| lia].
    apply in_level_indices_of. rewrite Hv. f_equal. lia.
  - intros level'. rewrite nth_level_indices.
    destruct (level' <? K); [| contradiction].
    rewrite in_level_indices_of, Hv. intros Heq. injection Heq as ->. lia.
Qed.

End PartitionFacts.

(** ** The loop and the reassembly *)

Section ForwardFacts.

Variables feat row : Type.
Variable long_undef : Z.
Variable rescale_box : roi -> R -> roi.

Lemma length_forward_rois (rois : list roi) (sf : option R) :
  length (forward_rois rescale_box rois sf) = length rois.
Proof. destruct sf; cbn; [apply length_map | reflexivity]. Qed.

Lemma forward_levels_eq (self : SingleRoIExtractor feat row) feats rois sf :
  forward_levels long_undef rescale_box self feats rois sf =
  let lvls := map_roi_levels long_undef self rois (Z.of_nat (length feats)) in
  let zipped := combine feats (roi_layers self) in
  Ok (map (level_indices_of lvls) (seq 0 (length zipped)),
      level_outputs lvls (forward_rois rescale_box rois sf) 0 zipped).
Proof.
  unfold forward_levels. fold (forward_rois rescale_box rois sf).
  rewrite level_loop_eq; [reflexivity |].
  now rewrite length_forward_rois, length_map_roi_levels.
Qed.

Lemma nth_error_combine {A B : Type} (l : list A) (l' : list B) n a b :
  nth_error l n = Some a -> nth_error l' n = Some b ->
  nth_error (combine l l') n = Some (a, b).
Proof.
  revert l' n. induction l as [| x l IH]; intros [| y l'] [| n]; cbn;
    try discriminate.
  - now intros [= ->] [= ->].
  - apply IH.
Qed.

Lemma nth_error_combine_inv {A B : Type} (l : list A) (l' : list B) n a b :
  nth_error (combine l l') n = Some (a, b) ->
  nth_error l n = Some a /\ nth_error l' n = Some b.
Proof.
  revert l' n. induction l as [| x l IH]; intros [| y l'] [| n]; cbn;
    try discriminate.
  - now intros [= -> ->].
  - apply IH.
Qed.

Section Outputs.

Variables (lvls : list Z) (rois : list roi).

Lemma level_outputs_ok (pool_row : nat -> roi -> row)
    (zipped : list (feat * roi_layer feat row)) (s : nat) :
  (forall j f layer, nth_error zipped j = Some (f, layer) ->
     layer f (level_rois lvls rois (s + j)) =
     Ok (map (pool_row (s + j)) (level_rois lvls rois (s + j)))) ->
  level_outputs lvls rois s zipped =
  map (fun level => map (pool_row level) (level_rois lvls rois level))
      (seq s (length zipped)).
Proof.
  revert s. induction zipped as [| [f layer] zipped IH]; intros s H;
    cbn [level_outputs length seq map]; [reflexivity |].
  specialize (H 0 f layer eq_refl) as H0. rewrite Nat.add_0_r in H0.
  rewrite H0. cbn [app]. f_equal. apply IH.
  intros j f' layer' Hj. rewrite Nat.add_succ_comm. now apply (H (S j)).
Qed.

Lemma concat_pooled_levels (pool_row : nat -> roi -> row) (levels : list nat) :
  concat (map (fun level => map (pool_row level) (level_rois lvls rois level)) levels) =
  map (fun i => pool_row (Z.to_nat (nth i lvls 0%Z)) (nth i rois roi0))
      (concat (map (level_indices_of lvls) levels)).
Proof.
  induction levels as [| level levels IH]; cbn [map concat]; [reflexivity |].
  rewrite map_app, IH. f_equal.
  unfold level_rois. rewrite map_map. apply map_ext_in.
  intros i Hi. apply in_level_indices_of in Hi.
  rewrite (nth_error_nth _ _ 0%Z Hi), Nat2Z.id. reflexivity.
Qed.

Lemma length_level_rois (level : nat) :
  length (level_rois lvls rois level) = length (level_indices_of lvls level).
Proof. apply length_map. Qed.

Lemma level_outputs_length_le (zipped : list (feat * roi_layer feat row)) (s : nat) :
  (forall f layer, In (f, layer) zipped -> rows_match layer) ->
  length (concat (level_outputs lvls rois s zipped)) <=
  length (concat (map (level_indices_of lvls) (seq s (length zipped)))).
Proof.
  revert s. induction zipped as [| [f layer] zipped IH]; intros s Hc;
    cbn [level_outputs length seq map concat]; [lia |].
  rewrite concat_app, !length_app.
  specialize (IH (S s) (fun f' l' H => Hc f' l' (or_intror H))).
  destruct (layer f (level_rois lvls rois s)) as [out | e] eqn:Hout; cbn.
  - apply (Hc f layer (or_introl eq_refl)) in Hout.
    rewrite length_level_rois in Hout. rewrite app_nil_r. lia.
  - lia.
Qed.

Lemma level_outputs_length_lt (zipped : list (feat * roi_layer feat row))
    (s j : nat) f layer e :
  (forall f' layer', In (f', layer') zipped -> rows_match layer') ->
  nth_error zipped j = Some (f, layer) ->
  layer f (level_rois lvls rois (s + j)) = Raise e ->
  level_rois lvls rois (s + j) <> [] ->
  length (concat (level_outputs lvls rois s zipped)) <
  length (concat (map (level_indices_of lvls) (seq s (length zipped)))).
Proof.
  revert s j. induction zipped as [| [f0 layer0] zipped IH]; intros s j Hc Hj He Hne.
  - destruct j; discriminate.
  - cbn [level_outputs length seq map concat].
    rewrite concat_app, !length_app.
    assert (Hc' : forall f' l', In (f', l') zipped -> rows_match l')
      by (intros f' l' H; apply (Hc f' l'); now right).
    destruct j as [| j]; cbn in Hj.
    + injection Hj as -> ->. rewrite Nat.add_0_r in He, Hne.
      rewrite He. cbn [concat length].
      pose proof (level_outputs_length_le zipped (S s) Hc') as Hle.
      assert (length (level_rois lvls rois s) <> 0)
        by (destruct (level_rois lvls rois s); [congruence | discriminate]).
      rewrite length_level_rois in H. lia.
    + rewrite <- Nat.add_succ_comm in He, Hne.
      specialize (IH (S s) j Hc' Hj He Hne).
      destruct (layer0 f0 (level_rois lvls rois s)) as [out | e0] eqn:Hout; cbn.
      * apply (Hc f0 layer0 (or_introl eq_refl)) in Hout.
        rewrite length_level_rois in Hout. rewrite app_nil_r. lia.
      * lia.
Qed.

Lemma level_outputs_has (zipped : list (feat * roi_layer feat row))
    (s j : nat) f layer out :
  nth_error zipped j = Some (f, layer) ->
  layer f (level_rois lvls rois (s + j)) = Ok out ->
  In out (level_outputs lvls rois s zipped).
Proof.
  revert s j. induction zipped as [| [f0 layer0] zipped IH]; intros s j Hj Hout.
  - destruct j; discriminate.
  - cbn [level_outputs]. apply in_or_app. destruct j as [| j]; cbn in Hj.
    + injection Hj as -> ->. rewrite Nat.add_0_r in Hout. rewrite Hout.
      left. now left.
    + right. rewrite <- Nat.add_succ_comm in Hout. now apply (IH (S s) j).
Qed.

End Outputs.

Lemma reassemble_empty (indices : list (list nat)) (roi_feats : list (list row)) :
  indices <> [] -> concat indices = [] -> roi_feats <> [] ->
  reassemble indices roi_feats = Ok [].
Proof.
  intros Hi Hc Hf. unfold reassemble, cat.
  destruct indices as [| i0 indices]; [congruence |].
  destruct roi_feats as [| f0 roi_feats]; [congruence |].
  cbn [bind]. rewrite Hc. reflexivity.
Qed.

Lemma map_seq_nth {A B : Type} (l : list A) (d : A) (f : A -> B) (h : nat -> B) :
  (forall i, i < length l -> h i = f (nth i l d)) ->
  map h (seq 0 (length l)) = map f l.
Proof.
  revert h. induction l as [| a l IH]; intros h Hh; cbn [length seq map];
    [reflexivity |].
  rewrite (Hh 0) by (cbn; lia). cbn [nth]. f_equal.
  rewrite <- seq_shift, map_map. apply IH.
  intros i Hi. rewrite (Hh (S i)) by (cbn; lia). reflexivity.
Qed.

End ForwardFacts.

(** ** forward, level by level *)

Section ForwardTheorems.

Variables feat row : Type.
Variable long_undef : Z.
Variable rescale_box : roi -> R -> roi.

Lemma length_zipped (self : SingleRoIExtractor feat row) (feats : list feat) :
  length (roi_layers self) = length feats ->
  length (combine feats (roi_layers self)) = length feats.
Proof. intros H. rewrite length_combine, H. apply Nat.min_id. Qed.

Lemma forward_multi_level (self : SingleRoIExtractor feat row) feats rois sf pool_row :
  length feats <> 1 -> 1 <= length feats ->
  length (roi_layers self) = length feats ->
  levels_in_range (map_roi_levels long_undef self rois (Z.of_nat (length feats)))
                  (length feats) ->
  poolers_succeed long_undef rescale_box self feats rois sf pool_row ->
  forward long_undef rescale_box self feats rois sf =
  Ok (map (fun i =>
             pool_row
               (Z.to_nat (nth i (map_roi_levels long_undef self rois
                                   (Z.of_nat (length feats))) 0%Z))
               (nth i (forward_rois rescale_box rois sf) roi0))
          (seq 0 (length rois))).
Proof.
  intros HK1 HK Hlayers Hrange Hpool. unfold forward.
  destruct (Nat.eqb_spec (length feats) 1) as [| _]; [contradiction |].
  rewrite forward_levels_eq. cbn zeta. cbn [bind].
  rewrite (length_zipped self feats Hlayers).
  set (lvls := map_roi_levels long_undef self rois (Z.of_nat (length feats))) in *.
  set (rois' := forward_rois rescale_box rois sf).
  rewrite (level_outputs_ok _ _ lvls rois' pool_row).
  2: { intros j f layer Hj. apply nth_error_combine_inv in Hj as [Hf Hl].
       specialize (Hpool j f layer Hf Hl). unfold level_input in Hpool.
       destruct (Nat.eqb_spec (length feats) 1); [contradiction |].
       exact Hpool. }
  rewrite (length_zipped self feats Hlayers).
  apply reassemble_restores.
  - destruct (length feats); [lia | discriminate].
  - destruct (length feats); [lia | discriminate].
  - apply concat_pooled_levels.
  - rewrite <- (length_map_roi_levels feat row long_undef self rois
                  (Z.of_nat (length feats))).
    now apply concat_levels_perm.
Qed.

Lemma map_roi_levels_wellformed (self : SingleRoIExtractor feat row) rois K :
  (0 < finest_scale self)%Z ->
  Forall (fun r => (0 <= area r)%R) rois ->
  map_roi_levels long_undef self rois K = map (spec_level (finest_scale self) K) rois.
Proof.
  intros Hf Hwf. rewrite map_roi_levels_chain. apply map_ext_in.
  intros r Hr. rewrite Forall_forall in Hwf.
  apply level_chain_wellformed; auto.
Qed.

Lemma forward_rois_map (rois : list roi) (feats : list feat) sf :
  length feats <> 1 ->
  forward_rois rescale_box rois sf = map (pooled_box rescale_box feats sf) rois.
Proof.
  intros HK. unfold forward_rois, pooled_box, roi_rescale.
  destruct (Nat.eqb_spec (length feats) 1); [contradiction |].
  destruct sf; [reflexivity | now rewrite map_id].
Qed.

Lemma forward_single_level (self : SingleRoIExtractor feat row) f rois sf :
  forward long_undef rescale_box self [f] rois sf = single_level_pool self [f] rois.
Proof.
  unfold forward, single_level_pool. cbn.
  destruct (roi_layers self); reflexivity.
Qed.

End ForwardTheorems.

(** ** Bands of the level formula *)

Section Bands.

Local Open Scope R_scope.

Lemma ln_2_pos : 0 < ln 2.
Proof. pose proof ln_lt_2. lra. Qed.

Lemma floor_log2_below_2 (v : R) :
  0 < v < 2 -> (Zfloor (ln v / ln 2) <= 0)%Z.
Proof.
  intros [Hpos Hlt]. pose proof ln_2_pos as H2.
  assert (Hln : ln v < ln 2) by now apply ln_increasing.
  assert (Hq : ln v / ln 2 < 1).
  { apply (Rmult_lt_reg_r (ln 2)); [assumption |]. field_simplify; lra. }
  pose proof (Zfloor_bound (ln v / ln 2)) as [Hfl _].
  assert (IZR (Zfloor (ln v / ln 2)) < 1) by lra.
  apply lt_IZR in H. lia.
Qed.

Lemma floor_log2_from_2_below_4 (v : R) :
  2 <= v < 4 -> Zfloor (ln v / ln 2) = 1%Z.
Proof.
  intros [Hge Hlt]. pose proof ln_2_pos as H2.
  assert (Hlo : ln 2 <= ln v).
  { destruct Hge as [Hgt | <-]; [left; apply ln_increasing; lra | right; reflexivity]. }
  assert (Hhi : ln v < ln 2 + ln 2).
  { rewrite <- ln_mult by lra. apply ln_increasing; lra. }
  apply Zfloor_eq. split.
  - apply (Rmult_le_reg_r (ln 2)); [assumption |]. field_simplify; lra.
  - apply (Rmult_lt_reg_r (ln 2)); [assumption |]. field_simplify; lra.
Qed.

Lemma spec_level_band_0 (finest K : Z) (r : roi) :
  (0 < finest)%Z -> (1 <= K)%Z -> 0 <= area r ->
  sqrt (area r) / IZR finest + 1 / 1000000 < 2 ->
  spec_level finest K r = 0%Z.
Proof.
  intros Hf HK Ha Hlt. unfold spec_level.
  assert (Hfr : 0 < IZR finest) by now apply IZR_lt.
  assert (Hs : 0 <= sqrt (area r) / IZR finest).
  { apply Rmult_le_pos; [apply sqrt_pos |]. left. now apply Rinv_0_lt_compat. }
  assert (Hv : 0 < sqrt (area r) / IZR finest + 1 / 1000000 < 2) by lra.
  apply floor_log2_below_2 in Hv. lia.
Qed.

Lemma spec_level_band_1 (finest K : Z) (r : roi) :
  (2 <= K)%Z ->
  2 <= sqrt (area r) / IZR finest + 1 / 1000000 < 4 ->
  spec_level finest K r = 1%Z.
Proof.
  intros HK Hv. unfold spec_level.
  rewrite floor_log2_from_2_below_4 by assumption. lia.
Qed.

Lemma fsqrt_fin_inv (p s : R) :
  fsqrt (Fin p) = Fin s -> 0 <= p /\ sqrt p = s.
Proof.
  unfold fsqrt. destruct (Rlt_dec p 0); [discriminate |].
  intros [= <-]. split; [lra | reflexivity].
Qed.

End Bands.


Lemma area_small_roi : area small_roi = 100%R.
Proof. unfold area, small_roi. cbn. lra. Qed.

Lemma area_big_roi : area big_roi = (112 * 112)%R.
Proof. unfold area, big_roi. cbn. lra. Qed.

Lemma area_edge_roi : area edge_roi = ((111999 / 1000) * (111999 / 1000))%R.
Proof. unfold area, edge_roi. cbn. lra. Qed.

Lemma area_flipped_roi : (area flipped_roi < 0)%R.
Proof. unfold area, flipped_roi. cbn. lra. Qed.

Lemma area_inverted_roi : (area inverted_roi < 0)%R.
Proof. unfold area, inverted_roi. cbn. lra. Qed.

Lemma scale_big_roi : roi_scales [big_roi] = [Fin 112].
Proof.
  unfold roi_scales. cbn [map]. fold (area big_roi). rewrite area_big_roi.
  rewrite fsqrt_nonneg by lra. rewrite sqrt_square by lra. reflexivity.
Qed.

Lemma scale_edge_roi : roi_scales [edge_roi] = [Fin (111999 / 1000)].
Proof.
  unfold roi_scales. cbn [map]. fold (area edge_roi). rewrite area_edge_roi.
  rewrite fsqrt_nonneg by lra. rewrite sqrt_square by lra. reflexivity.
Qed.

(** ** Level assignment: the claims *)

Section LevelClaims.

Variables feat row : Type.
Variable long_undef : Z.

(** C8.  With [finest_scale = 56] and at least two levels, an RoI of scale
    exactly 112 is assigned level 1 and an RoI of scale 111.999 level 0. *)
Theorem boundary_bands
    (self : SingleRoIExtractor feat row) (num_levels : Z) (r r' : roi) :
  finest_scale self = 56%Z ->
  (2 <= num_levels)%Z ->
  roi_scales [r] = [Fin 112] ->
  roi_scales [r'] = [Fin (111999 / 1000)] ->
  map_roi_levels long_undef self [r; r'] num_levels = [1%Z; 0%Z].
Proof.
  intros Hf HK Hr Hr'.
  unfold roi_scales in Hr, Hr'. cbn [map] in Hr, Hr'.
  injection Hr as Hr. injection Hr' as Hr'.
  fold (area r) in Hr. fold (area r') in Hr'.
  apply fsqrt_fin_inv in Hr as [Ha Hs]. apply fsqrt_fin_inv in Hr' as [Ha' Hs'].
  rewrite map_roi_levels_chain, Hf. cbn [map].
  rewrite !level_chain_wellformed by (assumption || lia).
  rewrite spec_level_band_1 by (lia || (rewrite Hs; lra)).
  rewrite spec_level_band_0 by (lia || assumption || (rewrite Hs'; lra)).
  reflexivity.
Qed.

(** C10.  Level assignment does not read the batch index: RoI sequences
    that agree on columns 1 to 4 get the same levels. *)
Theorem levels_ignore_batch_index
    (self : SingleRoIExtractor feat row) (rois rois' : list roi) (num_levels : Z) :
  Forall2 same_box rois rois' ->
  map_roi_levels long_undef self rois num_levels =
  map_roi_levels long_undef self rois' num_levels.
Proof.
  intros Hsame. rewrite !map_roi_levels_chain.
  induction Hsame as [| r r' rois rois' [Hx1 [Hy1 [Hx2 Hy2]]] _ IH]; cbn [map];
    [reflexivity |].
  rewrite IH. f_equal. unfold level_chain. now rewrite Hx1, Hy1, Hx2, Hy2.
Qed.

End LevelClaims.

Lemma boundary_bands_witness :
  map_roi_levels 0 fpn2 [big_roi; edge_roi] 4 = [1%Z; 0%Z].
Proof.
  apply (boundary_bands nat (nat * roi) 0%Z fpn2 4 big_roi edge_roi).
  - reflexivity.
  - lia.
  - exact scale_big_roi.
  - exact scale_edge_roi.
Defined.

Lemma levels_ignore_batch_index_witness :
  map_roi_levels 0 fpn2 [mkRoI 0 0 0 10 10; mkRoI 3 5 5 200 300] 4 =
  map_roi_levels 0 fpn2 [mkRoI 1 0 0 10 10; mkRoI 2 5 5 200 300] 4.
Proof.
  apply (levels_ignore_batch_index nat (nat * roi) 0%Z fpn2).
  repeat constructor.
Defined.

(** C2.  The code at an RoI with y2 < y1, four levels: the level is NaN
    after the clamp of line 59, and where the conversion of NaN yields
    [int64_min] the index [map_roi_levels] returns is [int64_min], outside
    [0, num_levels - 1], against the docstring's 0-based level index of
    each RoI. *)
Lemma map_roi_levels_out_of_range :
  map (fun t => fclamp t 0 (4 - 1)) (float_lvls fpn2 [inverted_roi]) = [NaN] /\
  map_roi_levels int64_min fpn2 [inverted_roi] 4 = [int64_min] /\
  ~ (0 <= int64_min <= 4 - 1)%Z.
Proof.
  assert (Hs : roi_scales [inverted_roi] = [NaN]).
  { unfold roi_scales. cbn [map]. fold (area inverted_roi).
    now rewrite (fsqrt_neg _ area_inverted_roi). }
  split; [| split].
  - unfold float_lvls. rewrite Hs. reflexivity.
  - unfold map_roi_levels, float_lvls. rewrite Hs. reflexivity.
  - unfold int64_min. lia.
Qed.

(** C4.  The code at an RoI with x2 < x1: the scale of lines 56-57 is NaN,
    it reaches log2 as it is, the level of line 58 is NaN, and where the
    conversion of NaN yields [int64_min] that is the level index
    returned. *)
Lemma scale_is_not_clamped :
  roi_scales [flipped_roi] = [NaN] /\
  map is_nan (float_lvls fpn2 [flipped_roi]) = [true] /\
  map_roi_levels int64_min fpn2 [flipped_roi] 4 = [int64_min].
Proof.
  assert (Hs : roi_scales [flipped_roi] = [NaN]).
  { unfold roi_scales. cbn [map]. fold (area flipped_roi).
    now rewrite (fsqrt_neg _ area_flipped_roi). }
  split; [exact Hs |].
  unfold map_roi_levels, float_lvls. rewrite Hs. cbn. auto.
Qed.

(** ** forward: the claims *)

Section ForwardClaims.

Variables feat row : Type.
Variable long_undef : Z.
Variable rescale_box : roi -> R -> roi.

Lemma single_level_inv (feats : list feat) (level : nat) (f : feat) :
  length feats = 1 -> nth_error feats level = Some f -> feats = [f] /\ level = 0.
Proof.
  destruct feats as [| f0 [| f1 feats]]; try discriminate. intros _.
  destruct level as [| [| level]]; cbn; try discriminate.
  now intros [= ->].
Qed.

(** C3 (amended).  With layers that return one row per RoI whenever they
    return, take a level that was handed at least one RoI.  If its layer
    raises, [forward] raises: on the single-level path the layer's exception
    propagates; otherwise the exception is swallowed, the skipped level
    leaves fewer pooled rows than indices, and the final indexing is out of
    range (or nothing is left to concatenate).  So whenever [forward]
    returns, the level was not skipped: its layer returned one row for each
    of its RoIs. *)
Theorem pooler_failure_is_fatal
    (self : SingleRoIExtractor feat row) (feats : list feat) (rois : list roi)
    (roi_scale_factor : option R) (level : nat) (f : feat)
    (layer : roi_layer feat row) :
  (forall l, In l (roi_layers self) -> rows_match l) ->
  nth_error feats level = Some f ->
  nth_error (roi_layers self) level = Some layer ->
  level_input long_undef rescale_box self feats rois roi_scale_factor level <> [] ->
  (forall e,
     layer f (level_input long_undef rescale_box self feats rois roi_scale_factor level)
       = Raise e ->
     raises (forward long_undef rescale_box self feats rois roi_scale_factor)) /\
  (forall out,
     forward long_undef rescale_box self feats rois roi_scale_factor = Ok out ->
     exists rows,
       layer f (level_input long_undef rescale_box self feats rois roi_scale_factor level)
         = Ok rows /\
       length rows =
       length (level_input long_undef rescale_box self feats rois roi_scale_factor level)).
Proof.
  intros Hc Hf Hl Hne.
  assert (Hfatal : forall e,
            layer f (level_input long_undef rescale_box self feats rois
                       roi_scale_factor level) = Raise e ->
            raises (forward long_undef rescale_box self feats rois roi_scale_factor)).
  { intros e He. unfold level_input in Hne, He. unfold forward.
    destruct (Nat.eqb_spec (length feats) 1) as [H1 | H1].
    - destruct (single_level_inv feats level f H1 Hf) as [-> ->].
      destruct (roi_layers self) as [| layer0 layers]; [discriminate |].
      injection Hl as ->. exists e. exact He.
    - rewrite forward_levels_eq. cbn zeta. cbn [bind].
      pose proof (nth_error_combine _ _ _ _ _ Hf Hl) as Hz.
      apply reassemble_short.
      + destruct (combine feats (roi_layers self)); [destruct level |]; discriminate.
      + apply (level_outputs_length_lt feat row _ _ _ 0 level f layer e);
          try assumption.
        intros f' layer' Hin. apply Hc. eapply in_combine_r, Hin. }
  split; [exact Hfatal |].
  intros out Hout.
  destruct (layer f (level_input long_undef rescale_box self feats rois
                       roi_scale_factor level)) as [rows | e] eqn:Hrows.
  - exists rows. split; [reflexivity |].
    apply (Hc layer (nth_error_In _ _ Hl) _ _ _ Hrows).
  - destruct (Hfatal e eq_refl) as [e' He']. congruence.
Qed.

(** C5.  The index lists of the loop are those of the levels assigned to
    the original boxes, with or without a scale factor: an RoI is in the
    list of a level exactly when [map_roi_levels] gave it that level. *)
Theorem rescale_keeps_routing
    (self : SingleRoIExtractor feat row) (feats : list feat) (rois : list roi)
    (factor : R) :
  let lvls := map_roi_levels long_undef self rois (Z.of_nat (length feats)) in
  exists indices roi_feats roi_feats',
    forward_levels long_undef rescale_box self feats rois (Some factor)
      = Ok (indices, roi_feats) /\
    forward_levels long_undef rescale_box self feats rois None
      = Ok (indices, roi_feats') /\
    forall level i, level < length indices ->
      (In i (nth level indices []) <-> nth_error lvls i = Some (Z.of_nat level)).
Proof.
  intros lvls. rewrite !forward_levels_eq. cbn zeta. fold lvls.
  do 3 eexists. split; [reflexivity |]. split; [reflexivity |].
  intros level i Hlevel. rewrite length_map, length_seq in Hlevel.
  rewrite nth_level_indices.
  destruct (Nat.ltb_spec level (length (combine feats (roi_layers self))));
    [| lia].
  apply in_level_indices_of.
Qed.

(** C6.  With exactly one feature level, [forward] is the call of the
    level-0 layer on the full, unmodified RoI sequence. *)
Theorem single_level_bypass
    (self : SingleRoIExtractor feat row) (feats : list feat) (rois : list roi)
    (roi_scale_factor : option R) (f : feat) (layer : roi_layer feat row) :
  length feats = 1 ->
  nth_error feats 0 = Some f ->
  nth_error (roi_layers self) 0 = Some layer ->
  forward long_undef rescale_box self feats rois roi_scale_factor = layer f rois /\
  forward long_undef rescale_box self feats rois roi_scale_factor
    = single_level_pool self feats rois.
Proof.
  intros H1 Hf Hl. destruct (single_level_inv feats 0 f H1 Hf) as [-> _].
  rewrite forward_single_level. unfold single_level_pool. rewrite Hl. cbn. auto.
Qed.

(** C9 (amended).  For an empty RoI sequence and K >= 1 levels, [forward]
    returns an empty tensor without raising, provided the layer of at least
    one level returns (an empty batch) on the empty RoI set; the levels
    whose layer raises are skipped. *)
Theorem forward_empty_rois
    (self : SingleRoIExtractor feat row) (feats : list feat)
    (roi_scale_factor : option R) :
  1 <= length feats ->
  (exists level f layer,
     nth_error feats level = Some f /\
     nth_error (roi_layers self) level = Some layer /\
     layer f [] = Ok []) ->
  forward long_undef rescale_box self feats [] roi_scale_factor = Ok [].
Proof.
  intros _ [level [f [layer [Hf [Hl Hok]]]]]. unfold forward.
  destruct (Nat.eqb_spec (length feats) 1) as [H1 | H1].
  - destruct (single_level_inv feats level f H1 Hf) as [-> ->].
    destruct (roi_layers self) as [| layer0 layers]; [discriminate |].
    injection Hl as ->. exact Hok.
  - rewrite forward_levels_eq. cbn zeta. cbn [bind].
    pose proof (nth_error_combine _ _ _ _ _ Hf Hl) as Hz.
    replace (forward_rois rescale_box [] roi_scale_factor) with (@nil roi)
      by (now destruct roi_scale_factor).
    apply reassemble_empty.
    + destruct (combine feats (roi_layers self)); [destruct level |]; discriminate.
    + cbn. induction (seq 0 (length (combine feats (roi_layers self))));
        [reflexivity | assumption].
    + intros Hnil.
      pose proof (level_outputs_has feat row [] [] _ 0 level f layer [] Hz Hok) as Hin.
      cbn in Hnil. rewrite Hnil in Hin. contradiction.
Qed.

End ForwardClaims.

(** ** The claims at concrete inputs *)

Lemma level_big_roi (u : Z) (self : SingleRoIExtractor nat (nat * roi)) (K : Z) :
  finest_scale self = 56%Z -> (2 <= K)%Z ->
  map_roi_levels u self [big_roi] K = [1%Z].
Proof.
  intros Hf HK. rewrite map_roi_levels_chain, Hf. cbn [map].
  rewrite level_chain_wellformed by (rewrite ?area_big_roi; lra || lia).
  rewrite spec_level_band_1; [reflexivity | assumption |].
  rewrite area_big_roi, sqrt_square by lra. lra.
Qed.

Lemma level_small_roi (u : Z) (self : SingleRoIExtractor nat (nat * roi)) (K : Z) :
  finest_scale self = 56%Z -> (1 <= K)%Z ->
  map_roi_levels u self [small_roi] K = [0%Z].
Proof.
  intros Hf HK. rewrite map_roi_levels_chain, Hf. cbn [map].
  rewrite level_chain_wellformed by (rewrite ?area_small_roi; lra || lia).
  rewrite spec_level_band_0; [reflexivity | lia | assumption | |];
    rewrite area_small_roi; [lra |].
  replace 100%R with (10 * 10)%R by lra. rewrite sqrt_square by lra. lra.
Qed.

Lemma map_roi_levels_cons (u : Z) (self : SingleRoIExtractor nat (nat * roi))
    (r : roi) (rois : list roi) (K : Z) :
  map_roi_levels u self (r :: rois) K =
  map_roi_levels u self [r] K ++ map_roi_levels u self rois K.
Proof. rewrite !map_roi_levels_chain. reflexivity. Qed.

Lemma tag_layers_succeed (u : Z) (resc : roi -> R -> roi)
    (self : SingleRoIExtractor nat (nat * roi)) (rois : list roi) (sf : option R) :
  roi_layers self = [tag_layer; tag_layer] ->
  poolers_succeed u resc self [0; 1] rois sf tag_row.
Proof.
  intros Hl level f layer Hf Hlayer. rewrite Hl in Hlayer.
  destruct level as [| [| level]]; cbn in Hf, Hlayer;
    try (destruct level; discriminate);
    injection Hf as <-; injection Hlayer as <-; reflexivity.
Qed.

Lemma tag_layer_rows_match : rows_match tag_layer.
Proof. intros f rs out [= <-]. apply length_map. Qed.

Lemma broken_layer_rows_match : rows_match broken_layer.
Proof. intros f rs out H. discriminate. Qed.

(** C1.  The code at one RoI with x2 < x1, two levels, both layers
    succeeding: where the conversion of NaN yields [int64_min] the RoI
    matches no level and [forward] returns no row for it, 0 rows for
    N = 1. *)
Lemma forward_drops_malformed_roi :
  poolers_succeed int64_min scale_about_center fpn2 [0; 1] [flipped_roi] None tag_row /\
  forward int64_min scale_about_center fpn2 [0; 1] [flipped_roi] None = Ok [] /\
  length (@nil (nat * roi)) <> length [flipped_roi].
Proof.
  split; [now apply tag_layers_succeed |]. split; [| discriminate].
  unfold forward. cbn [length Nat.eqb]. rewrite forward_levels_eq. cbn zeta.
  rewrite map_roi_levels_chain. cbn [map].
  rewrite (level_chain_malformed _ _ _ _ area_flipped_roi). reflexivity.
Qed.

Lemma pooler_failure_is_fatal_witness :
  (forall e,
     broken_layer 1
       (level_input 0 scale_about_center fpn2_broken [0; 1] [small_roi; big_roi] None 1)
       = Raise e ->
     raises (forward 0 scale_about_center fpn2_broken [0; 1] [small_roi; big_roi] None)) /\
  (forall out,
     forward 0 scale_about_center fpn2_broken [0; 1] [small_roi; big_roi] None = Ok out ->
     exists rows,
       broken_layer 1
         (level_input 0 scale_about_center fpn2_broken [0; 1] [small_roi; big_roi] None 1)
         = Ok rows /\
       length rows =
       length (level_input 0 scale_about_center fpn2_broken [0; 1]
                 [small_roi; big_roi] None 1)).
Proof.
  assert (Hin : level_input 0 scale_about_center fpn2_broken [0; 1]
                  [small_roi; big_roi] None 1 = [big_roi]).
  { unfold level_input, level_rois, level_indices_of. cbn [length Nat.eqb].
    rewrite (map_roi_levels_cons 0 fpn2_broken small_roi [big_roi]).
    rewrite (level_small_roi 0 fpn2_broken) by (reflexivity || lia).
    rewrite (level_big_roi 0 fpn2_broken) by (reflexivity || lia).
    reflexivity. }
  apply (pooler_failure_is_fatal nat (nat * roi) 0%Z scale_about_center
           fpn2_broken [0; 1] [small_roi; big_roi] None 1 1 broken_layer).
  - intros l [<- | [<- | []]];
      [exact tag_layer_rows_match | exact broken_layer_rows_match].
  - reflexivity.
  - reflexivity.
  - rewrite Hin. discriminate.
Defined.

(** C3, as stated, fails: the layer of level 1 raises on the one RoI it is
    handed and the exception is swallowed; the layer of level 0 returned two
    rows for its one RoI, so the final indexing stays in range and [forward]
    returns, without an error and without a row for the RoI of level 1. *)
Lemma swallowed_pooler_failure :
  level_input 0 scale_about_center fpn2_chatty [0; 1] [small_roi; big_roi] None 1
    = [big_roi] /\
  broken_layer 1 [big_roi] = Raise PoolerError /\
  forward 0 scale_about_center fpn2_chatty [0; 1] [small_roi; big_roi] None
    = Ok [(0, small_roi); (0, small_roi)].
Proof.
  split; [| split; [reflexivity |]].
  - unfold level_input, level_rois, level_indices_of. cbn [length Nat.eqb].
    rewrite (map_roi_levels_cons 0 fpn2_chatty small_roi [big_roi]).
    rewrite (level_small_roi 0 fpn2_chatty) by (reflexivity || lia).
    rewrite (level_big_roi 0 fpn2_chatty) by (reflexivity || lia).
    reflexivity.
  - unfold forward. cbn [length Nat.eqb]. rewrite forward_levels_eq. cbn zeta.
    rewrite (map_roi_levels_cons 0 fpn2_chatty small_roi [big_roi]).
    rewrite (level_small_roi 0 fpn2_chatty) by (reflexivity || (cbn; lia)).
    rewrite (level_big_roi 0 fpn2_chatty) by (reflexivity || (cbn; lia)).
    reflexivity.
Qed.

Lemma single_level_bypass_witness :
  forward 0 scale_about_center fpn1 [7] [big_roi; flipped_roi] (Some 2%R)
    = tag_layer 7 [big_roi; flipped_roi] /\
  forward 0 scale_about_center fpn1 [7] [big_roi; flipped_roi] (Some 2%R)
    = single_level_pool fpn1 [7] [big_roi; flipped_roi].
Proof.
  apply (single_level_bypass nat (nat * roi) 0%Z scale_about_center fpn1 [7]
           [big_roi; flipped_roi] (Some 2%R) 7 tag_layer);
    reflexivity.
Defined.

(** C7.  The code at one RoI with y2 < y1, two levels: where the
    conversion of NaN yields [int64_min] both index lists of the loop are
    empty, so index 0 is in no level's list and the sizes add up to 0, not
    to N = 1. *)
Lemma malformed_roi_in_no_level :
  forward_levels int64_min scale_about_center fpn2 [0; 1] [inverted_roi] None
    = Ok ([[]; []], [[]; []]) /\
  list_sum (map (@length nat) [[]; []]) <> length [inverted_roi].
Proof.
  split; [| discriminate].
  rewrite forward_levels_eq. cbn zeta.
  rewrite map_roi_levels_chain. cbn [map].
  rewrite (level_chain_malformed _ _ _ _ area_inverted_roi). reflexivity.
Qed.

Lemma forward_empty_rois_witness :
  forward 0 scale_about_center (mkExtractor [picky_layer; tag_layer] 56)
          [0; 1] [] None = Ok [].
Proof.
  apply (forward_empty_rois nat (nat * roi) 0%Z scale_about_center
           (mkExtractor [picky_layer; tag_layer] 56) [0; 1] None).
  - cbn. lia.
  - exists 1, 1, tag_layer. repeat split.
Defined.

(** C9, as stated, fails: when the layers raise on an empty batch of RoIs,
    [forward] raises on the empty RoI sequence, on the single-level path
    and on the multi-level one. *)
Lemma forward_empty_rois_can_raise :
  forward 0 scale_about_center fpn1_picky [0] [] None = Raise PoolerError /\
  forward 0 scale_about_center fpn2_picky [0; 1] [] None = Raise RuntimeError.
Proof. split; reflexivity. Qed.

(** The error of a skipped level is the [IndexError] of line 93. *)
Example forward_broken_layer :
  forward 0 scale_about_center fpn2_broken [0; 1] [small_roi; big_roi] None
  = Raise IndexError.
Proof.
  unfold forward. cbn [length Nat.eqb]. rewrite forward_levels_eq. cbn zeta.
  rewrite (map_roi_levels_cons 0 fpn2_broken small_roi [big_roi]).
  rewrite (level_small_roi 0 fpn2_broken) by (reflexivity || (cbn; lia)).
  rewrite (level_big_roi 0 fpn2_broken) by (reflexivity || (cbn; lia)).
  reflexivity.
Qed.

(** A run of the router: two levels, the larger RoI first. *)
Example forward_two_levels :
  forward 0 scale_about_center fpn2 [0; 1] [big_roi; small_roi] None
  = Ok [(1, big_roi); (0, small_roi)].
Proof.
  unfold forward. cbn [length Nat.eqb]. rewrite forward_levels_eq. cbn zeta.
  rewrite (map_roi_levels_cons 0 fpn2 big_roi [small_roi]).
  rewrite (level_small_roi 0 fpn2) by (reflexivity || (cbn; lia)).
  rewrite (level_big_roi 0 fpn2) by (reflexivity || (cbn; lia)).
  reflexivity.
Qed.

(** * Further properties of the extractor *)

(** ** Reassembly of any set of served indices *)

Section ServedFacts.

Variables feat row : Type.
Variable long_undef : Z.
Variable rescale_box : roi -> R -> roi.

Lemma strongly_sorted_filter (p : nat -> bool) (l : list nat) :
  StronglySorted le l -> StronglySorted le (filter p l).
Proof.
  induction 1 as [| a l Hs IH Ha]; cbn; [constructor |].
  destruct (p a); [| assumption].
  constructor; [assumption |].
  rewrite Forall_forall in *. intros x Hx. apply filter_In in Hx as [Hx _]. auto.
Qed.

Lemma reassemble_sorted (indices : list (list nat)) (roi_feats : list (list row))
    (g : nat -> row) (target : list nat) :
  indices <> [] -> roi_feats <> [] ->
  concat roi_feats = map g (concat indices) ->
  Permutation (concat indices) target ->
  StronglySorted le target ->
  reassemble indices roi_feats = Ok (map g target).
Proof.
  intros Hi Hf Hrows Hperm Hsorted. unfold reassemble, cat.
  destruct indices as [| i0 indices]; [congruence |].
  destruct roi_feats as [| f0 roi_feats]; [congruence |].
  cbn [bind]. set (P := concat (i0 :: indices)) in *.
  destruct (topk_argsort P) as [sorted [Htopk [Hvals [Hs [_ Hlook]]]]].
  rewrite Htopk, Hrows.
  rewrite (index_select_map (fun pr => g (fst pr)) (map g P) snd sorted).
  - rewrite <- (map_map fst g). f_equal. f_equal.
    apply sorted_perm_unique; [assumption | assumption |].
    now rewrite Hvals.
  - eapply Forall_impl; [| exact Hlook].
    intros [v p]; cbn. intros Hp. rewrite nth_error_map, Hp. reflexivity.
Qed.

Lemma index_select_length {A : Type} (t : list A) (idx : list nat) (out : list A) :
  index_select t idx = Ok out -> length out = length idx.
Proof.
  revert out. induction idx as [| i idx IH]; cbn; intros out H.
  - now injection H as <-.
  - destruct (nth_error t i); [| discriminate].
    destruct (index_select t idx) as [rest |]; [| discriminate].
    cbn in H. injection H as <-. cbn. f_equal. now apply IH.
Qed.

Lemma index_select_raises_index_error {A : Type} (t : list A) (idx : list nat) (e : exn) :
  index_select t idx = Raise e -> e = IndexError.
Proof.
  induction idx as [| i idx IH]; cbn; [discriminate |].
  destruct (nth_error t i); [| now intros [= <-]].
  destruct (index_select t idx) as [rest | e']; cbn; [discriminate |].
  intros [= <-]. now apply IH.
Qed.

Lemma served_spec (m : nat) (l : Z) :
  served m l = true <-> exists level, level < m /\ l = Z.of_nat level.
Proof.
  unfold served. rewrite andb_true_iff, Z.leb_le, Z.ltb_lt. split.
  - intros [H0 Hm]. exists (Z.to_nat l). lia.
  - intros [level [Hlt ->]]. lia.
Qed.

Lemma concat_levels_perm_served (lvls : list Z) (m : nat) :
  Permutation (concat (map (level_indices_of lvls) (seq 0 m)))
              (filter (fun i => served m (nth i lvls (-1)%Z)) (seq 0 (length lvls))).
Proof.
  apply NoDup_Permutation;
    [apply NoDup_concat_levels | apply NoDup_filter, seq_NoDup |].
  intros j. rewrite in_concat_levels, filter_In, in_seq, served_spec. split.
  - intros [level [Hl Hj]]. apply in_seq in Hl.
    split; [split; [lia | apply nth_error_Some; congruence] |].
    exists level. split; [lia |]. now apply nth_error_nth.
  - intros [[_ Hj] [level [Hlt Hnth]]]. exists level.
    split; [apply in_seq; lia |].
    rewrite (nth_error_nth' lvls (-1)%Z Hj). now f_equal.
Qed.

Lemma level_outputs_or_idle (lvls : list Z) (rois : list roi)
    (pool_row : nat -> roi -> row)
    (zipped : list (feat * roi_layer feat row)) (s : nat) :
  (forall j f layer, nth_error zipped j = Some (f, layer) ->
     layer f (level_rois lvls rois (s + j)) =
       Ok (map (pool_row (s + j)) (level_rois lvls rois (s + j)))
     \/ (level_rois lvls rois (s + j) = [] /\ raises (layer f []))) ->
  concat (level_outputs lvls rois s zipped) =
  concat (map (fun level => map (pool_row level) (level_rois lvls rois level))
              (seq s (length zipped))).
Proof.
  revert s. induction zipped as [| [f layer] zipped IH]; intros s H;
    cbn [level_outputs length seq map concat]; [reflexivity |].
  rewrite concat_app. f_equal.
  - specialize (H 0 f layer eq_refl). rewrite Nat.add_0_r in H.
    destruct H as [H | [Hnil [e He]]].
    + rewrite H. cbn. apply app_nil_r.
    + rewrite Hnil, He. reflexivity.
  - apply IH. intros j f' layer' Hj. rewrite Nat.add_succ_comm.
    now apply (H (S j)).
Qed.

Lemma map_filter_seq_nth {A B : Type} (l : list A) (d : A)
    (q : A -> bool) (h : A -> B) (p : nat -> bool) (g : nat -> B) :
  (forall i, i < length l -> p i = q (nth i l d) /\ g i = h (nth i l d)) ->
  map g (filter p (seq 0 (length l))) = map h (filter q l).
Proof.
  revert p g. induction l as [| a l IH]; intros p g H; cbn [length seq filter map];
    [reflexivity |].
  destruct (H 0) as [Hp Hg]; [cbn; lia |]. cbn [nth] in Hp, Hg. rewrite Hp.
  rewrite <- seq_shift.
  assert (Hrest : map g (filter p (map S (seq 0 (length l)))) = map h (filter q l)).
  { rewrite <- (IH (fun i => p (S i)) (fun i => g (S i))).
    - clear. induction (seq 0 (length l)) as [| i rest IHrest]; cbn; [reflexivity |].
      destruct (p (S i)); cbn; now rewrite IHrest.
    - intros i Hi. apply (H (S i)). cbn. lia. }
  destruct (q a); cbn [map]; now rewrite ?Hg, Hrest.
Qed.

Lemma visited_levels_pos (self : SingleRoIExtractor feat row) (feats : list feat)
    level f layer :
  nth_error feats level = Some f ->
  nth_error (roi_layers self) level = Some layer ->
  level < visited_levels self feats.
Proof.
  intros Hf Hl. unfold visited_levels.
  apply nth_error_Some. now rewrite (nth_error_combine _ _ _ _ _ Hf Hl).
Qed.

(** The index-based result of the loop and the reassembly, as rows of the
    served RoIs. *)
Lemma served_rows_by_index (self : SingleRoIExtractor feat row) feats rois sf pool_row :
  length feats <> 1 ->
  map (fun i =>
         pool_row
           (Z.to_nat (nth i (map_roi_levels long_undef self rois
                               (Z.of_nat (length feats))) 0%Z))
           (nth i (forward_rois rescale_box rois sf) roi0))
      (filter (fun i => served (visited_levels self feats)
                          (nth i (map_roi_levels long_undef self rois
                                    (Z.of_nat (length feats))) (-1)%Z))
              (seq 0 (length (map_roi_levels long_undef self rois
                                (Z.of_nat (length feats))))))
  = served_rows long_undef rescale_box self feats rois sf pool_row.
Proof.
  intros HK. unfold served_rows, served_rois, roi_level.
  rewrite length_map_roi_levels, map_roi_levels_chain.
  rewrite (forward_rois_map feat rescale_box rois feats sf HK).
  set (lvl := level_chain long_undef (finest_scale self) (Z.of_nat (length feats))).
  set (box := pooled_box rescale_box feats sf).
  apply map_filter_seq_nth with (d := roi0). intros i Hi. split.
  - f_equal. rewrite (nth_indep _ (-1)%Z (lvl roi0)) by now rewrite length_map.
    apply map_nth.
  - f_equal.
    + f_equal. rewrite (nth_indep _ 0%Z (lvl roi0)) by now rewrite length_map.
      apply map_nth.
    + rewrite (nth_indep _ roi0 (box roi0)) by now rewrite length_map.
      apply map_nth.
Qed.

End ServedFacts.

(** ** What forward returns on the multi-level path *)

Section ForwardExtras.

Variables feat row : Type.
Variable long_undef : Z.
Variable rescale_box : roi -> R -> roi.

Lemma level_input_multi (self : SingleRoIExtractor feat row) feats rois sf level :
  length feats <> 1 ->
  level_input long_undef rescale_box self feats rois sf level =
  level_rois (map_roi_levels long_undef self rois (Z.of_nat (length feats)))
             (forward_rois rescale_box rois sf) level.
Proof.
  intros HK. unfold level_input.
  now destruct (Nat.eqb_spec (length feats) 1).
Qed.

Lemma served_count (self : SingleRoIExtractor feat row) feats rois :
  length (filter (fun i => served (visited_levels self feats)
                             (nth i (map_roi_levels long_undef self rois
                                       (Z.of_nat (length feats))) (-1)%Z))
                 (seq 0 (length (map_roi_levels long_undef self rois
                                   (Z.of_nat (length feats))))))
  = length (served_rois long_undef self feats rois).
Proof.
  unfold served_rois, roi_level.
  rewrite length_map_roi_levels, map_roi_levels_chain.
  set (lvl := level_chain long_undef (finest_scale self) (Z.of_nat (length feats))).
  rewrite <- (length_map (fun _ => tt) (filter _ (seq _ _))).
  rewrite <- (length_map (fun _ => tt) (filter _ rois)).
  f_equal. apply map_filter_seq_nth with (d := roi0). intros i Hi.
  split; [| reflexivity].
  f_equal. rewrite (nth_indep _ (-1)%Z (lvl roi0)) by now rewrite length_map.
  apply map_nth.
Qed.

Lemma forward_served_by_index (self : SingleRoIExtractor feat row) feats rois sf pool_row :
  length feats <> 1 ->
  poolers_succeed_or_idle long_undef rescale_box self feats rois sf pool_row ->
  some_pooler_returns long_undef rescale_box self feats rois sf ->
  forward long_undef rescale_box self feats rois sf =
  let lvls := map_roi_levels long_undef self rois (Z.of_nat (length feats)) in
  Ok (map (fun i => pool_row (Z.to_nat (nth i lvls 0%Z))
                             (nth i (forward_rois rescale_box rois sf) roi0))
          (filter (fun i => served (visited_levels self feats) (nth i lvls (-1)%Z))
                  (seq 0 (length lvls)))).
Proof.
  intros HK Hpool [level [f [layer [out [Hf [Hl Hout]]]]]]. unfold forward.
  destruct (Nat.eqb_spec (length feats) 1) as [| _]; [contradiction |].
  rewrite forward_levels_eq. cbn zeta. cbn [bind].
  fold (visited_levels self feats).
  set (lvls := map_roi_levels long_undef self rois (Z.of_nat (length feats))) in *.
  set (rois' := forward_rois rescale_box rois sf).
  pose proof (nth_error_combine _ _ _ _ _ Hf Hl) as Hz.
  pose proof (visited_levels_pos feat row self feats level f layer Hf Hl) as Hm.
  apply reassemble_sorted.
  - destruct (visited_levels self feats); [lia | discriminate].
  - rewrite (level_input_multi self feats rois sf level HK) in Hout.
    pose proof (level_outputs_has feat row lvls rois' _ 0 level f layer out Hz Hout)
      as Hin.
    intros Hnil. fold lvls rois' in Hin. rewrite Hnil in Hin. contradiction.
  - rewrite (level_outputs_or_idle feat row lvls rois' pool_row).
    + apply concat_pooled_levels.
    + intros j f' layer' Hj. apply nth_error_combine_inv in Hj as [Hf' Hl'].
      specialize (Hpool j f' layer' Hf' Hl').
      rewrite (level_input_multi self feats rois sf j HK) in Hpool. exact Hpool.
  - apply concat_levels_perm_served.
  - apply strongly_sorted_filter, seq_strongly_sorted.
Qed.

(** X1.  On the multi-level path, when the layer of every visited level
    returns the pooled rows of its share or raises on an empty share, and
    at least one returns, [forward] returns the pooled rows of exactly the
    RoIs whose level index names a visited level, in input order. *)
Theorem forward_serves_visited_levels
    (self : SingleRoIExtractor feat row) (feats : list feat) (rois : list roi)
    (roi_scale_factor : option R) (pool_row : nat -> roi -> row) :
  length feats <> 1 ->
  poolers_succeed_or_idle long_undef rescale_box self feats rois roi_scale_factor pool_row ->
  some_pooler_returns long_undef rescale_box self feats rois roi_scale_factor ->
  forward long_undef rescale_box self feats rois roi_scale_factor =
  Ok (served_rows long_undef rescale_box self feats rois roi_scale_factor pool_row).
Proof.
  intros HK Hpool Hsome.
  rewrite (forward_served_by_index self feats rois roi_scale_factor pool_row
             HK Hpool Hsome).
  cbn zeta. f_equal.
  now apply served_rows_by_index.
Qed.

(** X2.  On the multi-level path, whenever [forward] returns, it returns one
    row per RoI whose level index names a visited level, whatever the
    layers returned. *)
Theorem forward_row_count
    (self : SingleRoIExtractor feat row) (feats : list feat) (rois : list roi)
    (roi_scale_factor : option R) (out : list row) :
  length feats <> 1 ->
  forward long_undef rescale_box self feats rois roi_scale_factor = Ok out ->
  length out = length (served_rois long_undef self feats rois).
Proof.
  intros HK. unfold forward.
  destruct (Nat.eqb_spec (length feats) 1) as [| _]; [contradiction |].
  rewrite forward_levels_eq. cbn zeta. cbn [bind].
  fold (visited_levels self feats).
  rewrite <- served_count.
  set (lvls := map_roi_levels long_undef self rois (Z.of_nat (length feats))).
  rewrite <- (Permutation_length
                (concat_levels_perm_served lvls (visited_levels self feats))).
  unfold reassemble, cat.
  destruct (map (level_indices_of lvls) (seq 0 (visited_levels self feats)))
    as [| i0 indices]; [discriminate |].
  cbn [bind]. set (P := concat (i0 :: indices)).
  destruct (topk_argsort P) as [sorted [Htopk [_ [_ [Hpos _]]]]].
  rewrite Htopk.
  destruct (level_outputs lvls (forward_rois rescale_box rois roi_scale_factor) 0
              (combine feats (roi_layers self))) as [| f0 roi_feats];
    [discriminate |].
  cbn [bind]. intros Hsel. apply index_select_length in Hsel.
  rewrite Hsel, (Permutation_length Hpos). apply length_seq.
Qed.

(** X3.  On the multi-level path, when no visited level's layer returns
    (also when there is no feature map or no layer at all), [forward]
    raises the [RuntimeError] of [torch.cat] on an empty list. *)
Theorem forward_no_pooler_returns
    (self : SingleRoIExtractor feat row) (feats : list feat) (rois : list roi)
    (roi_scale_factor : option R) :
  length feats <> 1 ->
  no_pooler_returns long_undef rescale_box self feats rois roi_scale_factor ->
  forward long_undef rescale_box self feats rois roi_scale_factor = Raise RuntimeError.
Proof.
  intros HK Hnone. unfold forward.
  destruct (Nat.eqb_spec (length feats) 1) as [| _]; [contradiction |].
  rewrite forward_levels_eq. cbn zeta. cbn [bind].
  set (lvls := map_roi_levels long_undef self rois (Z.of_nat (length feats))).
  set (rois' := forward_rois rescale_box rois roi_scale_factor).
  assert (Hout : forall (zipped : list (feat * roi_layer feat row)) s,
             (forall j f layer, nth_error zipped j = Some (f, layer) ->
                raises (layer f (level_rois lvls rois' (s + j)))) ->
             level_outputs lvls rois' s zipped = []).
  { induction zipped as [| [f layer] zipped IH]; intros s H; cbn [level_outputs];
      [reflexivity |].
    destruct (H 0 f layer eq_refl) as [e He]. rewrite Nat.add_0_r in He.
    rewrite He. cbn [app]. apply IH.
    intros j f' layer' Hj. rewrite Nat.add_succ_comm. now apply (H (S j)). }
  rewrite Hout.
  - unfold reassemble, cat.
    destruct (map (level_indices_of lvls)
                (seq 0 (length (combine feats (roi_layers self)))));
      [reflexivity |].
    cbn [bind]. destruct (topk _ _). reflexivity.
  - intros j f layer Hj. apply nth_error_combine_inv in Hj as [Hf Hl].
    specialize (Hnone j f layer Hf Hl).
    now rewrite (level_input_multi self feats rois roi_scale_factor j HK) in Hnone.
Qed.

(** X4.  On the multi-level path, with layers that return one row per RoI
    whenever they return: if the layer of a level with a non-empty share
    raises while some other layer returns, [forward] raises the
    [IndexError] of the final indexing. *)
Theorem forward_skipped_level_index_error
    (self : SingleRoIExtractor feat row) (feats : list feat) (rois : list roi)
    (roi_scale_factor : option R) (level : nat) (f : feat)
    (layer : roi_layer feat row) (e : exn) :
  length feats <> 1 ->
  (forall l, In l (roi_layers self) -> rows_match l) ->
  some_pooler_returns long_undef rescale_box self feats rois roi_scale_factor ->
  nth_error feats level = Some f ->
  nth_error (roi_layers self) level = Some layer ->
  level_input long_undef rescale_box self feats rois roi_scale_factor level <> [] ->
  layer f (level_input long_undef rescale_box self feats rois roi_scale_factor level)
    = Raise e ->
  forward long_undef rescale_box self feats rois roi_scale_factor = Raise IndexError.
Proof.
  intros HK Hc [level' [f' [layer' [out [Hf' [Hl' Hout]]]]]] Hf Hl Hne He.
  rewrite (level_input_multi self feats rois roi_scale_factor level HK) in Hne, He.
  rewrite (level_input_multi self feats rois roi_scale_factor level' HK) in Hout.
  unfold forward.
  destruct (Nat.eqb_spec (length feats) 1) as [| _]; [contradiction |].
  rewrite forward_levels_eq. cbn zeta. cbn [bind].
  set (lvls := map_roi_levels long_undef self rois (Z.of_nat (length feats))) in *.
  set (rois' := forward_rois rescale_box rois roi_scale_factor) in *.
  set (zipped := combine feats (roi_layers self)).
  pose proof (nth_error_combine _ _ _ _ _ Hf Hl) as Hz. fold zipped in Hz.
  pose proof (nth_error_combine _ _ _ _ _ Hf' Hl') as Hz'. fold zipped in Hz'.
  assert (Hlt : length (concat (level_outputs lvls rois' 0 zipped)) <
                length (concat (map (level_indices_of lvls) (seq 0 (length zipped))))).
  { apply (level_outputs_length_lt feat row lvls rois' zipped 0 level f layer e);
      try assumption.
    intros f0 layer0 Hin. apply Hc. eapply in_combine_r, Hin. }
  pose proof (level_outputs_has feat row lvls rois' zipped 0 level' f' layer' out
                Hz' Hout) as Hin.
  assert (Hpos : 0 < length zipped).
  { apply Nat.le_lt_trans with level; [lia |]. apply nth_error_Some. congruence. }
  assert (Hidx : map (level_indices_of lvls) (seq 0 (length zipped)) <> []).
  { destruct (length zipped); [lia | discriminate]. }
  destruct (reassemble_short row _ _ Hidx Hlt) as [e' He'].
  rewrite He'. f_equal. revert He'. unfold reassemble, cat.
  destruct (map (level_indices_of lvls) (seq 0 (length zipped)));
    [contradiction |].
  cbn [bind]. destruct (topk _ _) as [vals pos].
  destruct (level_outputs lvls rois' 0 zipped); [contradiction |].
  cbn [bind]. apply index_select_raises_index_error.
Qed.

(** X5.  With layers that return the pooled rows of whatever RoIs they are
    given, [forward] distributes over the concatenation of RoI sequences:
    the rows for [rois1 ++ rois2] are the rows for [rois1] followed by the
    rows for [rois2]. *)
Theorem forward_app
    (self : SingleRoIExtractor feat row) (feats : list feat) (rois1 rois2 : list roi)
    (roi_scale_factor : option R) (pool_row : nat -> roi -> row) :
  0 < visited_levels self feats ->
  poolers_total self feats pool_row ->
  exists out1 out2,
    forward long_undef rescale_box self feats rois1 roi_scale_factor = Ok out1 /\
    forward long_undef rescale_box self feats rois2 roi_scale_factor = Ok out2 /\
    forward long_undef rescale_box self feats (rois1 ++ rois2) roi_scale_factor
      = Ok (out1 ++ out2).
Proof.
  intros Hm Htotal. unfold visited_levels in Hm.
  destruct feats as [| f0 feats']; [cbn in Hm; lia |].
  destruct (roi_layers self) as [| layer0 layers] eqn:Hlayers; [cbn in Hm; lia |].
  destruct (Nat.eq_dec (length (f0 :: feats')) 1) as [H1 | H1].
  - (* the single-level path *)
    assert (Hrun : forall rs, forward long_undef rescale_box self (f0 :: feats') rs
                                roi_scale_factor = Ok (map (pool_row 0) rs)).
    { intros rs. unfold forward. rewrite Hlayers.
      destruct (Nat.eqb_spec (length (f0 :: feats')) 1); [| contradiction].
      apply (Htotal 0 f0 layer0 rs); [reflexivity | now rewrite Hlayers]. }
    exists (map (pool_row 0) rois1), (map (pool_row 0) rois2).
    rewrite !Hrun, map_app. auto.
  - assert (Hrun : forall rs, forward long_undef rescale_box self (f0 :: feats') rs
                                roi_scale_factor
                              = Ok (served_rows long_undef rescale_box self
                                      (f0 :: feats') rs roi_scale_factor pool_row)).
    { intros rs.
      rewrite (forward_served_by_index self (f0 :: feats') rs roi_scale_factor
                 pool_row H1).
      - cbn zeta. f_equal. now apply served_rows_by_index.
      - intros level f layer Hf Hl. left. now apply Htotal.
      - exists 0, f0, layer0. eexists. split; [reflexivity |].
        split; [now rewrite Hlayers |].
        apply (Htotal 0 f0 layer0); [reflexivity | now rewrite Hlayers]. }
    do 2 eexists. rewrite !Hrun. split; [reflexivity |]. split; [reflexivity |].
    unfold served_rows, served_rois. now rewrite filter_app, map_app.
Qed.

End ForwardExtras.

(** ** forward when every level index names a level *)

Section InRange.

Variables feat row : Type.
Variable long_undef : Z.
Variable rescale_box : roi -> R -> roi.

(** X17.  With one layer per level, the loop of [forward] returns one index
    list per level, and these lists partition {0, ..., N-1} (each index in
    exactly one list) exactly when every level index that [map_roi_levels]
    returned lies in [0, K-1]; the list sizes then add up to N. *)
Theorem index_lists_partition_iff_in_range
    (self : SingleRoIExtractor feat row) (feats : list feat) (rois : list roi)
    (roi_scale_factor : option R) :
  length (roi_layers self) = length feats ->
  exists indices roi_feats,
    forward_levels long_undef rescale_box self feats rois roi_scale_factor
      = Ok (indices, roi_feats) /\
    length indices = length feats /\
    (each_in_one_level indices (length rois) <->
     levels_in_range (map_roi_levels long_undef self rois (Z.of_nat (length feats)))
                     (length feats)) /\
    (levels_in_range (map_roi_levels long_undef self rois (Z.of_nat (length feats)))
                     (length feats) ->
     Permutation (concat indices) (seq 0 (length rois)) /\
     list_sum (map (@length nat) indices) = length rois).
Proof.
  intros Hlayers. rewrite forward_levels_eq. cbn zeta.
  rewrite (length_zipped feat row self feats Hlayers).
  set (lvls := map_roi_levels long_undef self rois (Z.of_nat (length feats))).
  assert (Hlen : length lvls = length rois) by apply length_map_roi_levels.
  do 2 eexists. split; [reflexivity |]. rewrite <- Hlen.
  split; [now rewrite length_map, length_seq |]. split; [split |].
  - intros Hone. apply Forall_forall. intros l Hl.
    apply In_nth_error in Hl as [i Hi].
    assert (Hlt : i < length lvls) by (apply nth_error_Some; congruence).
    destruct (Hone i Hlt) as [level [Hlevel [Hin _]]].
    rewrite length_map, length_seq in Hlevel.
    rewrite nth_level_indices in Hin.
    destruct (Nat.ltb_spec level (length feats)); [| lia].
    apply in_level_indices_of in Hin. rewrite Hi in Hin.
    injection Hin as ->. lia.
  - apply each_in_one_level_levels.
  - intros Hrange.
    pose proof (concat_levels_perm lvls (length feats) Hrange) as Hperm.
    split; [exact Hperm |].
    rewrite <- length_concat, (Permutation_length Hperm). apply length_seq.
Qed.

(** X18.  For a pyramid of K >= 1 levels with one layer per level, when
    every level index that [map_roi_levels] returns lies in [0, K-1] and
    every level's layer succeeds, [forward] returns exactly N rows and row i
    is the pooled feature of rois[i], pooled at the level the code assigned
    to it from the box its layer sees. *)
Theorem forward_in_range_restores_order
    (self : SingleRoIExtractor feat row) (feats : list feat) (rois : list roi)
    (roi_scale_factor : option R) (pool_row : nat -> roi -> row) :
  1 <= length feats ->
  length (roi_layers self) = length feats ->
  levels_in_range (map_roi_levels long_undef self rois (Z.of_nat (length feats)))
                  (length feats) ->
  poolers_succeed long_undef rescale_box self feats rois roi_scale_factor pool_row ->
  exists out,
    forward long_undef rescale_box self feats rois roi_scale_factor = Ok out /\
    length out = length rois /\
    forall i r, nth_error rois i = Some r ->
      nth_error out i =
      Some (pool_row (Z.to_nat (roi_level long_undef self feats r))
                     (pooled_box rescale_box feats roi_scale_factor r)).
Proof.
  intros HK Hlayers Hrange Hpool.
  set (level_of := fun r => Z.to_nat (roi_level long_undef self feats r)).
  set (box := pooled_box rescale_box feats roi_scale_factor).
  enough (Hout : forward long_undef rescale_box self feats rois roi_scale_factor =
                 Ok (map (fun r => pool_row (level_of r) (box r)) rois)).
  { eexists. split; [exact Hout |]. split; [apply length_map |].
    intros i r Hi. now rewrite nth_error_map, Hi. }
  pose proof (map_roi_levels_chain feat row long_undef self rois
                (Z.of_nat (length feats))) as Hlv.
  destruct (Nat.eq_dec (length feats) 1) as [H1 | H1].
  - (* the single-level path *)
    rewrite Hlv in Hrange. unfold levels_in_range in Hrange.
    rewrite Forall_map, Forall_forall in Hrange.
    destruct feats as [| f0 [| f1 feats']]; try discriminate.
    destruct (roi_layers self) as [| layer0 [| layer1 layers]] eqn:Hl;
      try discriminate.
    specialize (Hpool 0 f0 layer0 eq_refl). rewrite Hl in Hpool.
    specialize (Hpool eq_refl). unfold level_input in Hpool. cbn in Hpool.
    unfold forward. rewrite Hl. cbn [length Nat.eqb]. rewrite Hpool.
    f_equal. apply map_ext_in. intros r Hr. specialize (Hrange r Hr).
    unfold level_of, box, pooled_box, roi_level. cbn [length Nat.eqb].
    cbn [length] in Hrange. f_equal. lia.
  - (* several levels *)
    rewrite (forward_multi_level feat row long_undef rescale_box self feats rois
               roi_scale_factor pool_row H1 HK Hlayers Hrange Hpool).
    f_equal. rewrite Hlv.
    rewrite (forward_rois_map feat rescale_box rois feats roi_scale_factor H1).
    fold box. apply map_seq_nth with (d := roi0).
    intros i Hi. unfold level_of, roi_level. f_equal.
    + f_equal.
      rewrite (nth_indep _ 0%Z
                 (level_chain long_undef (finest_scale self)
                    (Z.of_nat (length feats)) roi0))
        by now rewrite length_map.
      apply map_nth.
    + rewrite (nth_indep _ roi0 (box roi0)) by now rewrite length_map.
      apply map_nth.
Qed.

End InRange.

(** ** Level assignment: the clamp and the edge cases *)

Section LevelExtras.

Variables feat row : Type.
Variable long_undef : Z.

Local Open Scope R_scope.

(** X8.  With fewer pyramid levels the assignment is the same one cut off
    at the new top level: for K <= K', the levels for K are the levels for
    K' clamped to K - 1. *)
Theorem levels_cut_off_at_top
    (self : SingleRoIExtractor feat row) (rois : list roi) (K K' : Z) :
  (0 < finest_scale self)%Z ->
  Forall (fun r => 0 <= area r) rois ->
  (K <= K')%Z ->
  map_roi_levels long_undef self rois K =
  map (Z.min (K - 1)) (map_roi_levels long_undef self rois K').
Proof.
  intros Hf Hwf HK.
  rewrite !(map_roi_levels_wellformed feat row long_undef self rois _ Hf Hwf).
  rewrite map_map. apply map_ext. intros r. unfold spec_level. lia.
Qed.

Lemma floor_log2_eps : Zfloor (ln (1 / 1000000) / ln 2) = (-20)%Z.
Proof.
  pose proof ln_2_pos as H2.
  assert (Hpow : forall n : nat, ln (/ 2 ^ n) = - INR n * ln 2).
  { intros n. rewrite ln_Rinv by (apply pow_lt; lra). rewrite ln_pow by lra. ring. }
  assert (Hlo : ln (/ 2 ^ 20) <= ln (1 / 1000000)).
  { left. apply ln_increasing; [apply Rinv_0_lt_compat, pow_lt; lra |].
    unfold Rdiv. rewrite Rmult_1_l. apply Rinv_lt_contravar; simpl; lra. }
  assert (Hhi : ln (1 / 1000000) < ln (/ 2 ^ 19)).
  { apply ln_increasing; [lra |].
    unfold Rdiv. rewrite Rmult_1_l. apply Rinv_lt_contravar; simpl; lra. }
  rewrite Hpow in Hlo, Hhi.
  replace (INR 20) with 20 in Hlo by (simpl; lra).
  replace (INR 19) with 19 in Hhi by (simpl; lra).
  apply Zfloor_eq. split.
  - apply (Rmult_le_reg_r (ln 2)); [assumption |].
    replace (ln (1 / 1000000) / ln 2 * ln 2) with (ln (1 / 1000000)) by (field; lra).
    lra.
  - apply (Rmult_lt_reg_r (ln 2)); [assumption |].
    replace (ln (1 / 1000000) / ln 2 * ln 2) with (ln (1 / 1000000)) by (field; lra).
    lra.
Qed.

(** X9.  An RoI whose scale (lines 56-57) is 0 gets level 0 when
    [finest_scale] is positive: the 1e-6 keeps the argument of log2 away
    from zero, the level before clamping is floor(log2(1e-6)) = -20, and
    the clamp raises it to 0. *)
Theorem zero_scale_level_0
    (self : SingleRoIExtractor feat row) (r : roi) (num_levels : Z) :
  (0 < finest_scale self)%Z ->
  (1 <= num_levels)%Z ->
  roi_scales [r] = [Fin 0] ->
  float_lvls self [r] = [Fin (-20)] /\
  map_roi_levels long_undef self [r] num_levels = [0%Z].
Proof.
  intros Hf HK Hs.
  assert (Hfr : 0 < IZR (finest_scale self)) by now apply IZR_lt.
  assert (Hl : float_lvls self [r] = [Fin (-20)]).
  { unfold float_lvls. rewrite Hs. cbn [map].
    rewrite fdiv_scalar_pos by assumption. cbn [fadd_scalar].
    replace (0 / IZR (finest_scale self) + 1 / 1000000) with (1 / 1000000)
      by (field; lra).
    rewrite flog2_pos by lra. cbn [ffloor]. now rewrite floor_log2_eps. }
  split; [exact Hl |].
  unfold map_roi_levels. rewrite Hl. cbn [map].
  rewrite fclamp_int. cbn [long]. rewrite Ztrunc_IZR. f_equal. lia.
Qed.

(** X10.  With [finest_scale = 0] nothing raises: the division yields an
    infinity for an RoI of positive scale, which is clamped to the top
    level, and NaN for an RoI of scale 0, whose level index is whatever the
    integer conversion yields for NaN. *)
Theorem zero_finest_scale
    (self : SingleRoIExtractor feat row) (r r0 : roi) (s : R) (num_levels : Z) :
  finest_scale self = 0%Z ->
  roi_scales [r] = [Fin s] ->
  0 < s ->
  roi_scales [r0] = [Fin 0] ->
  map_roi_levels long_undef self [r; r0] num_levels = [(num_levels - 1)%Z; long_undef].
Proof.
  intros Hf Hs Hpos Hs0.
  assert (Hss : roi_scales [r; r0] = [Fin s; Fin 0]).
  { change (roi_scales [r; r0]) with (roi_scales [r] ++ roi_scales [r0]).
    now rewrite Hs, Hs0. }
  unfold map_roi_levels, float_lvls. rewrite Hss, Hf. cbn [map].
  unfold fdiv_scalar.
  destruct (Req_dec_T 0 0) as [_ | Hne]; [| contradiction].
  destruct (Req_dec_T s 0) as [H0 | _]; [lra |].
  destruct (Rlt_dec 0 s) as [_ | Hn]; [| contradiction].
  destruct (Req_dec_T 0 0) as [_ | Hne]; [| contradiction].
  cbn. now rewrite Ztrunc_IZR.
Qed.

(** X19.  The clamp of line 59 brings every level that is not NaN into
    range, the infinite ones included: with at least one level, the index
    [map_roi_levels] returns for an RoI lies in [0, num_levels - 1] whenever
    the RoI's level before clamping (line 58) is not NaN. *)
Theorem clamp_brings_levels_in_range
    (self : SingleRoIExtractor feat row) (rois : list roi) (num_levels : Z) :
  (1 <= num_levels)%Z ->
  Forall2 (fun t l => is_nan t = false -> (0 <= l <= num_levels - 1)%Z)
          (float_lvls self rois)
          (map_roi_levels long_undef self rois num_levels).
Proof.
  intros HK. unfold map_roi_levels, float_lvls.
  induction (roi_scales rois) as [| sc scs IH]; cbn [map]; constructor;
    [| exact IH].
  destruct (flog2 (fadd_scalar (fdiv_scalar sc (IZR (finest_scale self)))
                     (1 / 1000000))) as [x | | |]; cbn [ffloor is_nan].
  - intros _. rewrite fclamp_int. cbn [long]. rewrite Ztrunc_IZR. lia.
  - intros _. cbn [fclamp long]. rewrite Ztrunc_IZR. lia.
  - intros _. cbn [fclamp]. rewrite Rmin_IZR. cbn [long].
    rewrite Ztrunc_IZR. lia.
  - discriminate.
Qed.

End LevelExtras.

(** ** The further properties at concrete inputs *)

Lemma levels_small_flipped (self : SingleRoIExtractor nat (nat * roi)) :
  finest_scale self = 56%Z ->
  map_roi_levels int64_min self [small_roi; flipped_roi] 2 = [0%Z; int64_min].
Proof.
  intros Hf. rewrite (map_roi_levels_cons int64_min self small_roi [flipped_roi]).
  rewrite (level_small_roi int64_min self 2 Hf) by lia.
  rewrite map_roi_levels_chain. cbn [map app].
  now rewrite (level_chain_malformed _ _ _ _ area_flipped_roi).
Qed.

Lemma levels_small_big (u : Z) (self : SingleRoIExtractor nat (nat * roi)) :
  finest_scale self = 56%Z ->
  map_roi_levels u self [small_roi; big_roi] 2 = [0%Z; 1%Z].
Proof.
  intros Hf. rewrite (map_roi_levels_cons u self small_roi [big_roi]).
  rewrite (level_small_roi u self 2 Hf) by lia.
  rewrite (level_big_roi u self 2 Hf) by lia. reflexivity.
Qed.

Lemma tag_layers_total (self : SingleRoIExtractor nat (nat * roi)) :
  roi_layers self = [tag_layer; tag_layer] ->
  poolers_total self [0; 1] tag_row.
Proof.
  intros Hl level f layer rs Hf Hlayer. rewrite Hl in Hlayer.
  destruct level as [| [| level]]; cbn in Hf, Hlayer;
    try (destruct level; discriminate);
    injection Hf as <-; injection Hlayer as <-; reflexivity.
Qed.

Lemma forward_serves_visited_levels_witness :
  forward int64_min scale_about_center fpn2_picky [0; 1] [small_roi; flipped_roi] None
  = Ok (served_rows int64_min scale_about_center fpn2_picky [0; 1]
          [small_roi; flipped_roi] None tag_row).
Proof.
  assert (Hin : forall level,
             level_input int64_min scale_about_center fpn2_picky [0; 1]
               [small_roi; flipped_roi] None level =
             match level with 0 => [small_roi] | _ => [] end).
  { intros level. unfold level_input, level_rois, level_indices_of.
    cbn [length Nat.eqb].
    change (Z.of_nat 2) with 2%Z.
    rewrite (levels_small_flipped fpn2_picky eq_refl).
    destruct level as [| [| level]]; reflexivity. }
  apply (forward_serves_visited_levels nat (nat * roi) int64_min scale_about_center
           fpn2_picky [0; 1] [small_roi; flipped_roi] None tag_row).
  - discriminate.
  - intros level f layer Hf Hl. rewrite Hin.
    destruct level as [| [| level]]; cbn in Hf, Hl;
      try (destruct level; discriminate);
      injection Hf as <-; injection Hl as <-.
    + left. reflexivity.
    + right. split; [reflexivity |]. now exists PoolerError.
  - exists 0, 0, picky_layer, [(0, small_roi)].
    split; [reflexivity |]. split; [reflexivity |]. now rewrite Hin.
Defined.

Lemma forward_row_count_witness :
  length [(1, big_roi); (0, small_roi)]
  = length (served_rois 0 fpn2 [0; 1] [big_roi; small_roi]).
Proof.
  apply (forward_row_count nat (nat * roi) 0%Z scale_about_center fpn2 [0; 1]
           [big_roi; small_roi] None).
  - discriminate.
  - exact forward_two_levels.
Defined.

Lemma forward_no_pooler_returns_witness :
  forward 0 scale_about_center fpn2_all_broken [0; 1] [small_roi] None
  = Raise RuntimeError.
Proof.
  apply (forward_no_pooler_returns nat (nat * roi) 0%Z scale_about_center
           fpn2_all_broken [0; 1] [small_roi] None).
  - discriminate.
  - intros level f layer Hf Hl.
    destruct level as [| [| level]]; cbn in Hl;
      try (destruct level; discriminate);
      injection Hl as <-; now exists PoolerError.
Defined.

Lemma forward_skipped_level_index_error_witness :
  forward 0 scale_about_center fpn2_broken [0; 1] [small_roi; big_roi] None
  = Raise IndexError.
Proof.
  assert (Hin : forall level,
             level_input 0 scale_about_center fpn2_broken [0; 1]
               [small_roi; big_roi] None level =
             match level with 0 => [small_roi] | 1 => [big_roi] | _ => [] end).
  { intros level. unfold level_input, level_rois, level_indices_of.
    cbn [length Nat.eqb].
    change (Z.of_nat 2) with 2%Z.
    rewrite (levels_small_big 0 fpn2_broken eq_refl).
    destruct level as [| [| level]]; try reflexivity.
    unfold eq_int. cbn [map].
    destruct (Z.eqb_spec 0 (Z.of_nat (S (S level)))) as [H | _]; [lia |].
    destruct (Z.eqb_spec 1 (Z.of_nat (S (S level)))) as [H | _];
      [lia | reflexivity]. }
  apply (forward_skipped_level_index_error nat (nat * roi) 0%Z scale_about_center
           fpn2_broken [0; 1] [small_roi; big_roi] None 1 1 broken_layer PoolerError).
  - discriminate.
  - intros l [<- | [<- | []]];
      [exact tag_layer_rows_match | exact broken_layer_rows_match].
  - exists 0, 0, tag_layer, [(0, small_roi)].
    split; [reflexivity |]. split; [reflexivity |]. now rewrite Hin.
  - reflexivity.
  - reflexivity.
  - rewrite Hin. discriminate.
  - reflexivity.
Defined.

Lemma forward_app_witness :
  exists out1 out2,
    forward int64_min scale_about_center fpn2 [0; 1] [big_roi] (Some 2%R) = Ok out1 /\
    forward int64_min scale_about_center fpn2 [0; 1] [flipped_roi; small_roi] (Some 2%R)
      = Ok out2 /\
    forward int64_min scale_about_center fpn2 [0; 1]
      ([big_roi] ++ [flipped_roi; small_roi]) (Some 2%R) = Ok (out1 ++ out2).
Proof.
  apply (forward_app nat (nat * roi) int64_min scale_about_center fpn2 [0; 1]
           [big_roi] [flipped_roi; small_roi] (Some 2%R) tag_row).
  - cbn. lia.
  - now apply tag_layers_total.
Defined.

Lemma index_lists_partition_iff_in_range_witness :
  exists indices roi_feats,
    forward_levels int64_min scale_about_center fpn2 [0; 1] [small_roi; flipped_roi] None
      = Ok (indices, roi_feats) /\
    length indices = length [0; 1] /\
    (each_in_one_level indices (length [small_roi; flipped_roi]) <->
     levels_in_range
       (map_roi_levels int64_min fpn2 [small_roi; flipped_roi] (Z.of_nat (length [0; 1])))
       (length [0; 1])) /\
    (levels_in_range
       (map_roi_levels int64_min fpn2 [small_roi; flipped_roi] (Z.of_nat (length [0; 1])))
       (length [0; 1]) ->
     Permutation (concat indices) (seq 0 (length [small_roi; flipped_roi])) /\
     list_sum (map (@length nat) indices) = length [small_roi; flipped_roi]).
Proof.
  apply (index_lists_partition_iff_in_range nat (nat * roi) int64_min
           scale_about_center fpn2 [0; 1] [small_roi; flipped_roi] None).
  reflexivity.
Defined.

Lemma forward_in_range_restores_order_witness :
  exists out,
    forward 0 scale_about_center fpn2 [0; 1] [big_roi; small_roi] (Some 2%R) = Ok out /\
    length out = length [big_roi; small_roi] /\
    forall i r, nth_error [big_roi; small_roi] i = Some r ->
      nth_error out i =
      Some (tag_row (Z.to_nat (roi_level 0 fpn2 [0; 1] r))
                    (pooled_box scale_about_center [0; 1] (Some 2%R) r)).
Proof.
  apply (forward_in_range_restores_order nat (nat * roi) 0%Z scale_about_center fpn2
           [0; 1] [big_roi; small_roi] (Some 2%R) tag_row).
  - cbn. lia.
  - reflexivity.
  - cbn [length]. change (Z.of_nat 2) with 2%Z.
    rewrite (map_roi_levels_cons 0 fpn2 big_roi [small_roi]).
    rewrite (level_big_roi 0 fpn2) by (reflexivity || lia).
    rewrite (level_small_roi 0 fpn2) by (reflexivity || lia).
    repeat constructor; lia.
  - now apply tag_layers_succeed.
Defined.

Lemma scale_point_roi : roi_scales [point_roi] = [Fin 0].
Proof.
  unfold roi_scales, point_roi. cbn [map x1 x2 y1 y2].
  rewrite fsqrt_nonneg by lra.
  replace ((5 - 5) * (5 - 5))%R with 0%R by lra. now rewrite sqrt_0.
Qed.

Lemma zero_scale_level_0_witness :
  float_lvls fpn2 [point_roi] = [Fin (-20)] /\
  map_roi_levels 0 fpn2 [point_roi] 4 = [0%Z].
Proof.
  apply (zero_scale_level_0 nat (nat * roi) 0%Z fpn2 point_roi 4).
  - cbn. lia.
  - lia.
  - exact scale_point_roi.
Defined.

Lemma zero_finest_scale_witness :
  map_roi_levels 7 fpn2_zero_scale [big_roi; point_roi] 4 = [(4 - 1)%Z; 7%Z].
Proof.
  apply (zero_finest_scale nat (nat * roi) 7%Z fpn2_zero_scale big_roi point_roi 112 4).
  - reflexivity.
  - exact scale_big_roi.
  - lra.
  - exact scale_point_roi.
Defined.

Lemma clamp_brings_levels_in_range_witness :
  Forall2 (fun t l => is_nan t = false -> (0 <= l <= 2 - 1)%Z)
          (float_lvls fpn2 [small_roi; flipped_roi])
          (map_roi_levels int64_min fpn2 [small_roi; flipped_roi] 2).
Proof.
  apply (clamp_brings_levels_in_range nat (nat * roi) int64_min fpn2
           [small_roi; flipped_roi] 2).
  lia.
Defined.

Lemma levels_cut_off_at_top_witness :
  map_roi_levels 0 fpn2 [small_roi; big_roi] 2 =
  map (Z.min (2 - 1)) (map_roi_levels 0 fpn2 [small_roi; big_roi] 4).
Proof.
  apply (levels_cut_off_at_top nat (nat * roi) 0%Z fpn2 [small_roi; big_roi] 2 4).
  - cbn. lia.
  - repeat constructor.
    + rewrite area_small_roi. lra.
    + rewrite area_big_roi. lra.
  - lia.
Defined.

(** * Properties of the configuration utilities *)

Import ConfigUtils.

(** ** Rounding and ceiling *)

Section RoundingFacts.

Local Open Scope R_scope.

Lemma py_round_bound (x : R) :
  IZR (py_round x) - 1 / 2 <= x <= IZR (py_round x) + 1 / 2.
Proof.
  unfold py_round. pose proof (Zfloor_bound x) as [Hlo Hhi].
  destruct (Rlt_dec (x - IZR (Zfloor x)) (1 / 2)) as [H1 | H1]; [lra |].
  destruct (Rlt_dec (1 / 2) (x - IZR (Zfloor x))) as [H2 | H2].
  - rewrite plus_IZR. lra.
  - destruct (Z.even (Zfloor x)); [lra | rewrite plus_IZR; lra].
Qed.

Lemma py_round_mono (x y : R) : x <= y -> (py_round x <= py_round y)%Z.
Proof.
  intros Hxy. destruct (Z_le_gt_dec (py_round x) (py_round y)) as [| Hgt];
    [assumption |].
  pose proof (py_round_bound x) as [Hx _]. pose proof (py_round_bound y) as [_ Hy].
  assert (Hz : (py_round y + 1 <= py_round x)%Z) by lia.
  apply IZR_le in Hz. rewrite plus_IZR in Hz.
  assert (x = y) by lra. subst y. lia.
Qed.

Lemma py_round_IZR (z : Z) : py_round (IZR z) = z.
Proof.
  unfold py_round. rewrite ZfloorZ.
  destruct (Rlt_dec (IZR z - IZR z) (1 / 2)); [reflexivity | lra].
Qed.

Lemma py_round_below_half (x : R) : x < 1 / 2 -> (py_round x <= 0)%Z.
Proof.
  intros Hx. pose proof (py_round_bound x) as [Hlo _].
  assert (H : IZR (py_round x) < 1) by lra.
  apply lt_IZR in H. lia.
Qed.

Lemma ceil_div_bounds (a t : Z) :
  (0 < t)%Z ->
  ((Zceil (IZR a / IZR t) - 1) * t < a <= Zceil (IZR a / IZR t) * t)%Z.
Proof.
  intros Ht. assert (Htr : 0 < IZR t) by now apply IZR_lt.
  pose proof (Zceil_bound (IZR a / IZR t)) as [Hlo Hhi].
  set (e := Zceil (IZR a / IZR t)) in *.
  assert (Ha : IZR a = IZR a / IZR t * IZR t) by (field; lra).
  split.
  - apply lt_IZR. rewrite mult_IZR, minus_IZR.
    apply (Rmult_lt_compat_r (IZR t)) in Hlo; [| assumption]. lra.
  - apply le_IZR. rewrite mult_IZR.
    apply (Rmult_le_compat_r (IZR t)) in Hhi; [| lra]. lra.
Qed.

(** *** Rounding to a float *)

Lemma ulp_pos (x : R) : 0 < ulp x.
Proof. apply powerRZ_lt. lra. Qed.

Lemma round_float_error (x : R) :
  x - ulp x / 2 <= round_float x <= x + ulp x / 2.
Proof.
  unfold round_float. pose proof (ulp_pos x) as Hu.
  pose proof (py_round_bound (x / ulp x)) as [Hlo Hhi].
  set (k := IZR (py_round (x / ulp x))) in *.
  assert (Hx : x = x / ulp x * ulp x) by (field; lra).
  split.
  - apply (Rmult_le_compat_r (ulp x)) in Hhi; [| lra]. lra.
  - apply (Rmult_le_compat_r (ulp x)) in Hlo; [| lra]. lra.
Qed.

Lemma round_float_multiple (x : R) (k : Z) :
  x = IZR k * ulp x -> round_float x = x.
Proof.
  intros Hx. unfold round_float. pose proof (ulp_pos x) as Hu.
  replace (x / ulp x) with (IZR k).
  - rewrite py_round_IZR. now rewrite <- Hx.
  - rewrite Hx at 1. field. lra.
Qed.

Lemma powerRZ_2_floor_log2 (x : R) :
  0 < x -> powerRZ 2 (Zfloor (ln x / ln 2)) <= x < powerRZ 2 (Zfloor (ln x / ln 2) + 1).
Proof.
  intros Hx. pose proof ln_2_pos as H2.
  pose proof (Zfloor_bound (ln x / ln 2)) as [Hlo Hhi].
  rewrite !powerRZ_Rpower by lra. unfold Rpower.
  rewrite <- (exp_ln x Hx) at 2 3. rewrite plus_IZR.
  split.
  - apply (Rmult_le_compat_r (ln 2)) in Hlo; [| lra].
    replace (ln x / ln 2 * ln 2) with (ln x) in Hlo by (field; lra).
    destruct Hlo as [Hlt | Heq]; [left; now apply exp_increasing | right; now rewrite Heq].
  - apply exp_increasing.
    apply (Rmult_lt_compat_r (ln 2)) in Hhi; [| lra].
    replace (ln x / ln 2 * ln 2) with (ln x) in Hhi by (field; lra). lra.
Qed.

Lemma powerRZ_2_mono (a b : Z) : (a <= b)%Z -> powerRZ 2 a <= powerRZ 2 b.
Proof.
  intros Hab. replace b with (a + (b - a))%Z by lia.
  rewrite powerRZ_add by lra.
  pose proof (powerRZ_lt 2 a ltac:(lra)) as Ha.
  assert (1 <= powerRZ 2 (b - a)).
  { destruct (b - a)%Z as [| p | p] eqn:Hp; try lia; cbn.
    - lra.
    - apply pow_R1_Rle. lra. }
  nra.
Qed.

Lemma powerRZ_2_nonneg (k : Z) : (0 <= k)%Z -> powerRZ 2 k = IZR (2 ^ k).
Proof.
  intros Hk. rewrite <- (Z2Nat.id k Hk), <- pow_powerRZ. now rewrite pow_IZR.
Qed.

(** In the normal range a unit in the last place is at most 2^-52 |x|. *)
Lemma ulp_normal (x : R) :
  x <> 0 -> (-1022 <= Zfloor (ln (Rabs x) / ln 2))%Z ->
  ulp x <= Rabs x * powerRZ 2 (-52).
Proof.
  intros Hx He. unfold ulp, float_exponent. rewrite Z.max_l by assumption.
  unfold Z.sub. rewrite powerRZ_add by lra.
  pose proof (powerRZ_2_floor_log2 (Rabs x) (Rabs_pos_lt x Hx)) as [Hlo _].
  apply Rmult_le_compat_r; [| exact Hlo]. left. apply powerRZ_lt. lra.
Qed.

Lemma ulp_subnormal (x : R) :
  (Zfloor (ln (Rabs x) / ln 2) < -1022)%Z -> ulp x = powerRZ 2 (-1074).
Proof.
  intros He. unfold ulp, float_exponent. rewrite Z.max_r by lia. reflexivity.
Qed.

(** The integers of magnitude up to 2^53 are floats. *)
Lemma round_float_int (z : Z) : (Z.abs z <= 2 ^ 53)%Z -> round_float (IZR z) = IZR z.
Proof.
  intros Hz. pose proof ln_2_pos as H2.
  destruct (Z.eq_dec z 0) as [-> | Hne].
  { unfold round_float. replace (0 / ulp 0) with 0 by (unfold Rdiv; ring).
    rewrite py_round_IZR. ring. }
  assert (Habs : Rabs (IZR z) = IZR (Z.abs z)) by now rewrite abs_IZR.
  assert (H1 : 1 <= Rabs (IZR z)) by (rewrite Habs; apply IZR_le; lia).
  assert (H53 : Rabs (IZR z) <= IZR (2 ^ 53)) by (rewrite Habs; now apply IZR_le).
  pose proof (powerRZ_2_floor_log2 (Rabs (IZR z)) ltac:(lra)) as [Hlo Hhi].
  set (e := Zfloor (ln (Rabs (IZR z)) / ln 2)) in *.
  assert (He0 : (0 <= e)%Z).
  { apply Zfloor_lub. apply Rmult_le_pos; [| left; now apply Rinv_0_lt_compat].
    rewrite <- ln_1. destruct H1 as [Hlt | <-]; [left; apply ln_increasing; lra | right; reflexivity]. }
  assert (He53 : (e <= 53)%Z).
  { destruct (Z_le_gt_dec e 53) as [| Hgt]; [assumption |].
    pose proof (powerRZ_2_mono 54 e ltac:(lia)) as Hm.
    rewrite (powerRZ_2_nonneg 54) in Hm by lia.
    assert (IZR (2 ^ 53) < IZR (2 ^ 54)) by (apply IZR_lt; lia). lra. }
  assert (Hu : ulp (IZR z) = powerRZ 2 (e - 52)).
  { unfold ulp, float_exponent. fold e. now rewrite Z.max_l by lia. }
  destruct (Z.eq_dec e 53) as [He | He].
  - (* |z| = 2^53 *)
    subst e. rewrite He in *. rewrite (powerRZ_2_nonneg 53) in Hlo by lia.
    assert (Hz53 : Z.abs z = (2 ^ 53)%Z).
    { apply Z.le_antisymm; [assumption |]. apply le_IZR. now rewrite <- Habs. }
    apply (round_float_multiple _ (z / 2)). rewrite Hu.
    replace (53 - 52)%Z with 1%Z by lia.
    replace (powerRZ 2 1) with (IZR 2) by (unfold powerRZ; simpl; lra).
    rewrite <- mult_IZR. f_equal.
    assert (Hcases : z = (2 ^ 53)%Z \/ z = (- 2 ^ 53)%Z) by lia.
    destruct Hcases as [-> | ->]; reflexivity.
  - apply (round_float_multiple _ (z * 2 ^ (52 - e))). rewrite Hu.
    rewrite mult_IZR, <- (powerRZ_2_nonneg (52 - e)) by lia.
    rewrite Rmult_assoc, <- powerRZ_add by lra.
    replace (52 - e + (e - 52))%Z with 0%Z by lia. cbn. ring.
Qed.

Lemma Zceil_IZR (z : Z) : Zceil (IZR z) = z.
Proof. apply Zceil_eq. lra. Qed.

(** For a dividend of magnitude up to 2^52, rounding the quotient to a
    float does not move its ceiling. *)
Lemma ceil_round_float_div (a t : Z) :
  (Z.abs a <= 2 ^ 52)%Z -> (1 <= t <= 2 ^ 1024)%Z ->
  Zceil (round_float (IZR a / IZR t)) = Zceil (IZR a / IZR t).
Proof.
  intros Ha [Ht1 Ht2].
  assert (Htr : 1 <= IZR t) by now apply IZR_le.
  assert (Hinv : 0 < / IZR t <= 1).
  { split; [apply Rinv_0_lt_compat; lra |].
    rewrite <- Rinv_1. apply Rinv_le_contravar; lra. }
  set (q := IZR a / IZR t).
  assert (Hqt : q * IZR t = IZR a) by (unfold q; field; lra).
  assert (Hqa : Rabs q <= IZR (2 ^ 52) * / IZR t).
  { unfold q, Rdiv. rewrite Rabs_mult, (Rabs_pos_eq (/ IZR t)) by lra.
    apply Rmult_le_compat_r; [lra |]. rewrite <- abs_IZR. now apply IZR_le. }
  pose proof (Zceil_bound q) as [Hlo Hhi]. set (c := Zceil q) in *.
  destruct Hhi as [Hlt | Heq].
  - (* q is not an integer *)
    assert (Hup : q + / IZR t <= IZR c).
    { assert (Hz : (a + 1 <= c * t)%Z).
      { assert (H : IZR a < IZR (c * t)).
        { rewrite mult_IZR, <- Hqt. apply Rmult_lt_compat_r; lra. }
        apply lt_IZR in H. lia. }
      apply IZR_le in Hz. rewrite plus_IZR, mult_IZR, <- Hqt in Hz.
      apply (Rmult_le_reg_r (IZR t)); [lra |].
      rewrite Rmult_plus_distr_r, Rinv_l by lra. exact Hz. }
    assert (Hdown : IZR c - 1 + / IZR t <= q).
    { assert (Hz : ((c - 1) * t + 1 <= a)%Z).
      { assert (H : IZR ((c - 1) * t) < IZR a).
        { rewrite mult_IZR, minus_IZR, <- Hqt. apply Rmult_lt_compat_r; lra. }
        apply lt_IZR in H. lia. }
      apply IZR_le in Hz. rewrite plus_IZR, mult_IZR, minus_IZR, <- Hqt in Hz.
      apply (Rmult_le_reg_r (IZR t)); [lra |].
      rewrite Rmult_plus_distr_r, Rinv_l by lra. exact Hz. }
    assert (Hq0 : q <> 0).
    { intros H0. assert (Hc : c = 0%Z).
      { unfold c. rewrite H0. apply Zceil_IZR. }
      rewrite Hc, H0 in Hlt. lra. }
    assert (Hulp : ulp q / 2 < / IZR t).
    { destruct (Z_le_gt_dec (-1022) (Zfloor (ln (Rabs q) / ln 2))) as [Hn | Hs].
      - pose proof (ulp_normal q Hq0 Hn) as Hu.
        assert (H52 : IZR (2 ^ 52) * powerRZ 2 (-52) = 1).
        { rewrite <- (powerRZ_2_nonneg 52) by lia.
          rewrite <- powerRZ_add by lra. reflexivity. }
        pose proof (powerRZ_lt 2 (-52) ltac:(lra)) as Hp.
        assert (Rabs q * powerRZ 2 (-52) <= / IZR t).
        { apply (Rmult_le_compat_r (powerRZ 2 (-52))) in Hqa; [| lra].
          replace (IZR (2 ^ 52) * / IZR t * powerRZ 2 (-52))
            with (IZR (2 ^ 52) * powerRZ 2 (-52) * / IZR t) in Hqa by ring.
          rewrite H52 in Hqa. lra. }
        pose proof (ulp_pos q). lra.
      - rewrite (ulp_subnormal q) by lia.
        pose proof (powerRZ_2_mono (-1074) (-1024) ltac:(lia)) as Hm.
        pose proof (powerRZ_lt 2 (-1074) ltac:(lra)) as Hp.
        assert (Ht : powerRZ 2 (-1024) <= / IZR t).
        { assert (H1 : powerRZ 2 (-1024) * powerRZ 2 1024 = 1).
          { rewrite <- powerRZ_add by lra. reflexivity. }
          assert (Htb : IZR t <= powerRZ 2 1024).
          { rewrite powerRZ_2_nonneg by lia. now apply IZR_le. }
          pose proof (powerRZ_lt 2 (-1024) ltac:(lra)) as Hp'.
          apply (Rmult_le_reg_r (IZR t)); [lra |].
          rewrite Rinv_l by lra.
          apply (Rmult_le_compat_l (powerRZ 2 (-1024))) in Htb; lra. }
        lra. }
    pose proof (round_float_error q) as Herr.
    apply Zceil_eq. lra.
  - (* q is an integer *)
    fold q. rewrite Heq. rewrite round_float_int; [apply Zceil_IZR |].
    apply le_IZR. rewrite abs_IZR, <- Heq.
    assert (IZR (2 ^ 52) * / IZR t <= IZR (2 ^ 52)).
    { assert (0 <= IZR (2 ^ 52)) by (apply IZR_le; lia). nra. }
    assert (IZR (2 ^ 52) <= IZR (2 ^ 53)) by (apply IZR_le; lia). lra.
Qed.

Lemma exp_decay_le_1 (x : R) : x <= 0 -> 0 < exp x <= 1.
Proof.
  intros Hx. split; [apply exp_pos |].
  destruct Hx as [Hlt | ->]; [| rewrite exp_0; lra].
  left. rewrite <- exp_0. now apply exp_increasing.
Qed.

End RoundingFacts.

(** ** patch_adaptive_repeat_dataset *)

Section AdaptiveRepeat.

Local Open Scope R_scope.

(** The repeat count of line 129. *)
Lemma new_repeat_pos (x : R) : (1 <= Z.max (py_round x) 1)%Z.
Proof. lia. Qed.

Lemma round_product_inv (x : R) (k : Z) :
  round_product x = Returns k -> k = py_round x /\ (k <= 2 ^ 1024)%Z.
Proof.
  unfold round_product, float_overflow.
  destruct (Rle_dec _ (Rabs x)) as [| Hx]; [discriminate |].
  intros [= <-]. split; [reflexivity |].
  pose proof (py_round_bound x) as [Hlo _].
  pose proof (Rle_abs x) as Habs.
  assert (Hlt : IZR (py_round x) < IZR (2 ^ 1024 - 2 ^ 970 + 1)).
  { rewrite plus_IZR. lra. }
  apply lt_IZR in Hlt. lia.
Qed.

Lemma patch_adaptive_repeat_dataset_inv (cfg cfg' : config) (n : Z) (decay factor : R) :
  patch_adaptive_repeat_dataset cfg n decay factor = Returns cfg' ->
  cfg' = cfg \/
  exists cur,
    max_epochs (runner cfg) = Some cur /\
    let t := Z.max (py_round (exp (decay * IZR n) * factor)) 1 in
    let e := Zceil (round_float (IZR cur / IZR t)) in
    (t <= 2 ^ 1024)%Z /\
    e <> 1%Z /\
    cfg' = mkConfig
             (mkTrain (train_type (data_train cfg))
                      (adaptive_repeat_times (data_train cfg)) (Some t))
             (mkRunner (runner_type (runner cfg)) (Some e)).
Proof.
  unfold patch_adaptive_repeat_dataset, and_then, int_to_float, math_exp, int_true_div.
  destruct (_ && _)%bool; [| intros [= <-]; now left].
  destruct (is_epoch_based_runner (runner cfg)); [| intros [= <-]; now left].
  destruct (max_epochs (runner cfg)) as [cur |]; [| discriminate].
  destruct (Rle_dec float_overflow (Rabs (IZR n))); [discriminate |].
  destruct (Rlt_dec exp_max_arg (decay * IZR n)); [discriminate |].
  destruct (round_product (exp (decay * IZR n) * factor)) as [k |] eqn:Hk;
    [| discriminate].
  apply round_product_inv in Hk as [-> Hk].
  cbn zeta.
  set (t := Z.max (py_round (exp (decay * IZR n) * factor)) 1).
  destruct (Rle_dec float_overflow (Rabs (IZR cur / IZR t))); [discriminate |].
  destruct (Z.eqb_spec (Zceil (round_float (IZR cur / IZR t))) 1) as [| Hne];
    intros [= <-]; [now left |].
  right. exists cur. split; [reflexivity |].
  split; [unfold t; lia |]. split; [assumption | reflexivity].
Qed.

(** The call on the branch of lines 128-134, away from every overflow. *)
Lemma patch_adaptive_repeat_dataset_triggered (cfg : config) (n : Z)
    (decay factor : R) (cur : Z) :
  train_type (data_train cfg) = "RepeatDataset"%string ->
  adaptive_repeat_times (data_train cfg) = Some true ->
  is_epoch_based_runner (runner cfg) = true ->
  max_epochs (runner cfg) = Some cur ->
  (Z.abs n < 2 ^ 63)%Z ->
  decay * IZR n <= 0 ->
  Rabs (exp (decay * IZR n) * factor) < float_overflow ->
  (Z.abs cur <= 2 ^ 53)%Z ->
  patch_adaptive_repeat_dataset cfg n decay factor =
  let t := Z.max (py_round (exp (decay * IZR n) * factor)) 1 in
  let e := Zceil (round_float (IZR cur / IZR t)) in
  if (e =? 1)%Z then Returns cfg
  else Returns (mkConfig
                  (mkTrain (train_type (data_train cfg))
                           (adaptive_repeat_times (data_train cfg)) (Some t))
                  (mkRunner (runner_type (runner cfg)) (Some e))).
Proof.
  intros Ht Ha He Hm Hn Hd Hf Hcur.
  assert (Hbig : IZR (2 ^ 63) < float_overflow).
  { unfold float_overflow. apply IZR_lt. lia. }
  unfold patch_adaptive_repeat_dataset, and_then, int_to_float, math_exp,
    round_product, int_true_div.
  rewrite Ht, Ha, He, Hm. cbn [String.eqb Ascii.eqb Bool.eqb andb].
  destruct (Rle_dec float_overflow (Rabs (IZR n))) as [Hov | _].
  { rewrite <- abs_IZR in Hov. apply IZR_lt in Hn. lra. }
  destruct (Rlt_dec exp_max_arg (decay * IZR n)) as [Hlt | _].
  { unfold exp_max_arg in Hlt. lra. }
  destruct (Rle_dec float_overflow (Rabs (exp (decay * IZR n) * factor)))
    as [Hov | _]; [lra |].
  cbn zeta.
  set (t := Z.max (py_round (exp (decay * IZR n) * factor)) 1).
  assert (Ht1 : 1 <= IZR t) by (apply IZR_le; unfold t; lia).
  destruct (Rle_dec float_overflow (Rabs (IZR cur / IZR t))) as [Hov | _];
    [| reflexivity].
  assert (Hq : Rabs (IZR cur / IZR t) <= IZR (2 ^ 53)).
  { unfold Rdiv. rewrite Rabs_mult, <- abs_IZR.
    assert (Hinv : 0 < / IZR t <= 1).
    { split; [apply Rinv_0_lt_compat; lra |].
      rewrite <- Rinv_1. apply Rinv_le_contravar; lra. }
    rewrite (Rabs_pos_eq (/ IZR t)) by lra.
    apply IZR_le in Hcur.
    assert (0 <= IZR (Z.abs cur)) by (apply IZR_le; lia). nra. }
  assert (IZR (2 ^ 53) < IZR (2 ^ 63)) by (apply IZR_lt; lia). lra.
Qed.

(** X11.  For an epoch budget of magnitude up to 2^52: whenever
    [patch_adaptive_repeat_dataset] changes the config, it sets a repeat
    count t >= 1 and an epoch count e <> 1 with
    (e - 1) * t < max_epochs <= e * t: the repeated epochs cover the epoch
    budget with less than one epoch of excess, and for a budget of at least
    one epoch 2 <= e <= max_epochs.  Nothing else changes. *)
Theorem adaptive_repeat_covers_epochs
    (cfg cfg' : config) (num_samples : Z) (decay factor : R) :
  (forall cur, max_epochs (runner cfg) = Some cur -> (Z.abs cur <= 2 ^ 52)%Z) ->
  patch_adaptive_repeat_dataset cfg num_samples decay factor = Returns cfg' ->
  cfg' = cfg \/
  exists cur e t,
    max_epochs (runner cfg) = Some cur /\
    cfg' = mkConfig
             (mkTrain (train_type (data_train cfg))
                      (adaptive_repeat_times (data_train cfg)) (Some t))
             (mkRunner (runner_type (runner cfg)) (Some e)) /\
    (1 <= t)%Z /\ e <> 1%Z /\
    ((e - 1) * t < cur <= e * t)%Z /\
    ((1 <= cur)%Z -> (2 <= e <= cur)%Z).
Proof.
  intros Hcur H.
  apply patch_adaptive_repeat_dataset_inv in H as [-> | [cur [Hm H]]];
    [now left |].
  cbn zeta in H. destruct H as [Ht2 [Hne ->]]. right.
  set (t := Z.max (py_round (exp (decay * IZR num_samples) * factor)) 1) in *.
  assert (Ht : (1 <= t)%Z) by apply new_repeat_pos.
  rewrite (ceil_round_float_div cur t (Hcur cur Hm)) in * by lia.
  set (e := Zceil (IZR cur / IZR t)) in *.
  pose proof (ceil_div_bounds cur t ltac:(lia)) as Hb. fold e in Hb.
  exists cur, e, t. repeat split; try assumption; try lia; nia.
Qed.

(** X12.  With a non-positive [decay * num_samples] and a non-negative
    [factor], a repeat count that [patch_adaptive_repeat_dataset] sets lies
    between 1 and round(factor) (30 with the default factor). *)
Theorem adaptive_repeat_at_most_factor
    (cfg cfg' : config) (num_samples : Z) (decay factor : R) :
  patch_adaptive_repeat_dataset cfg num_samples decay factor = Returns cfg' ->
  decay * IZR num_samples <= 0 ->
  0 <= factor ->
  cfg' <> cfg ->
  exists t, times (data_train cfg') = Some t /\
            (1 <= t <= Z.max (py_round factor) 1)%Z.
Proof.
  intros H Hd Hf Hne.
  apply patch_adaptive_repeat_dataset_inv in H as [-> | [cur [_ H]]];
    [contradiction |].
  cbn zeta in H. destruct H as [_ [_ ->]]. cbn.
  eexists. split; [reflexivity |].
  pose proof (exp_decay_le_1 _ Hd) as [He0 He1].
  assert (Hx : exp (decay * IZR num_samples) * factor <= factor) by nra.
  apply py_round_mono in Hx. lia.
Qed.

(** X14.  For a sample count that fits a machine integer and is so large
    that exp(decay * num_samples) * factor is below 1/2, with a non-positive
    [decay * num_samples] and a non-negative [factor]: a [RepeatDataset]
    config with [adaptive_repeat_times] set, an epoch-based runner and an
    epoch budget other than one epoch, of magnitude up to 2^53, keeps its
    [max_epochs] and gets [times = 1]. *)
Theorem adaptive_repeat_large_dataset
    (cfg : config) (num_samples : Z) (decay factor : R) (cur : Z) :
  train_type (data_train cfg) = "RepeatDataset"%string ->
  adaptive_repeat_times (data_train cfg) = Some true ->
  is_epoch_based_runner (runner cfg) = true ->
  max_epochs (runner cfg) = Some cur ->
  cur <> 1%Z ->
  (Z.abs cur <= 2 ^ 53)%Z ->
  (0 <= num_samples < 2 ^ 63)%Z ->
  decay * IZR num_samples <= 0 ->
  0 <= factor ->
  exp (decay * IZR num_samples) * factor < 1 / 2 ->
  patch_adaptive_repeat_dataset cfg num_samples decay factor =
  Returns (mkConfig
             (mkTrain "RepeatDataset"%string (Some true) (Some 1%Z))
             (mkRunner (runner_type (runner cfg)) (Some cur))).
Proof.
  intros Ht Ha He Hm Hcur Hc53 Hn Hd Hf Hx.
  pose proof (exp_pos (decay * IZR num_samples)) as He0.
  assert (Hov : Rabs (exp (decay * IZR num_samples) * factor) < float_overflow).
  { rewrite Rabs_pos_eq by nra.
    assert (1 < float_overflow) by (unfold float_overflow; apply IZR_lt; lia).
    lra. }
  rewrite (patch_adaptive_repeat_dataset_triggered cfg num_samples decay factor cur
             Ht Ha He Hm ltac:(lia) Hd Hov Hc53).
  cbn zeta. apply py_round_below_half in Hx.
  rewrite Z.max_r by lia.
  replace (IZR cur / IZR 1) with (IZR cur) by (field; lra).
  rewrite round_float_int, Zceil_IZR by assumption.
  destruct (Z.eqb_spec cur 1); [contradiction |].
  now rewrite Ht, Ha.
Qed.

(** X20.  A growth exponent [decay * num_samples] of 710 or more is fatal
    for a [RepeatDataset] config with [adaptive_repeat_times] set and an
    epoch-based runner: the call raises, whatever the factor and the epoch
    budget. *)
Theorem adaptive_repeat_overflow
    (cfg : config) (num_samples : Z) (decay factor : R) :
  train_type (data_train cfg) = "RepeatDataset"%string ->
  adaptive_repeat_times (data_train cfg) = Some true ->
  is_epoch_based_runner (runner cfg) = true ->
  710 <= decay * IZR num_samples ->
  exists e, patch_adaptive_repeat_dataset cfg num_samples decay factor = Raises e.
Proof.
  intros Ht Ha He Hd.
  unfold patch_adaptive_repeat_dataset, and_then, int_to_float, math_exp.
  rewrite Ht, Ha, He. cbn [String.eqb Ascii.eqb Bool.eqb andb].
  destruct (max_epochs (runner cfg)) as [cur |]; [| now eexists].
  destruct (Rle_dec float_overflow (Rabs (IZR num_samples))); [now eexists |].
  destruct (Rlt_dec exp_max_arg (decay * IZR num_samples)) as [| Hn];
    [now eexists |].
  unfold exp_max_arg in Hn. lra.
Qed.

Lemma large_dataset_factor :
  exp (default_decay * IZR 100000) * default_factor < 1 / 2.
Proof.
  assert (Hd : default_decay * IZR 100000 = - (200))
    by (unfold default_decay; lra).
  rewrite Hd. unfold default_factor.
  rewrite exp_Ropp. pose proof (exp_ineq1_le 200) as H.
  assert (Hinv : / exp 200 <= / 201).
  { apply Rinv_le_contravar; lra. }
  lra.
Qed.

Lemma patch_repeat_config_large :
  patch_adaptive_repeat_dataset repeat_config 100000 default_decay default_factor
  = Returns repeat_config_patched.
Proof.
  pose proof large_dataset_factor as Hx.
  pose proof (exp_pos (default_decay * IZR 100000)) as He0.
  assert (Hf : 0 <= default_factor) by (unfold default_factor; lra).
  assert (Hov : Rabs (exp (default_decay * IZR 100000) * default_factor)
                < float_overflow).
  { rewrite Rabs_pos_eq by nra.
    assert (1 < float_overflow) by (unfold float_overflow; apply IZR_lt; lia).
    lra. }
  rewrite (patch_adaptive_repeat_dataset_triggered repeat_config 100000
             default_decay default_factor 100 eq_refl eq_refl eq_refl eq_refl
             ltac:(lia) ltac:(unfold default_decay; lra) Hov ltac:(lia)).
  cbn zeta. apply py_round_below_half in Hx.
  rewrite Z.max_r by lia.
  replace (IZR 100 / IZR 1) with (IZR 100) by (field; lra).
  rewrite round_float_int, Zceil_IZR by lia. reflexivity.
Qed.

End AdaptiveRepeat.

Lemma adaptive_repeat_covers_epochs_witness :
  repeat_config_patched = repeat_config \/
  exists cur e t,
    max_epochs (runner repeat_config) = Some cur /\
    repeat_config_patched =
      mkConfig
        (mkTrain (train_type (data_train repeat_config))
                 (adaptive_repeat_times (data_train repeat_config)) (Some t))
        (mkRunner (runner_type (runner repeat_config)) (Some e)) /\
    (1 <= t)%Z /\ e <> 1%Z /\
    ((e - 1) * t < cur <= e * t)%Z /\
    ((1 <= cur)%Z -> (2 <= e <= cur)%Z).
Proof.
  apply (adaptive_repeat_covers_epochs repeat_config repeat_config_patched
           100000 default_decay default_factor).
  - intros cur [= <-]. lia.
  - exact patch_repeat_config_large.
Defined.

Lemma adaptive_repeat_large_dataset_witness :
  patch_adaptive_repeat_dataset repeat_config 100000 default_decay default_factor =
  Returns (mkConfig
             (mkTrain "RepeatDataset"%string (Some true) (Some 1%Z))
             (mkRunner (runner_type (runner repeat_config)) (Some 100%Z))).
Proof.
  apply (adaptive_repeat_large_dataset repeat_config 100000 default_decay
           default_factor 100).
  - reflexivity.
  - reflexivity.
  - reflexivity.
  - reflexivity.
  - discriminate.
  - lia.
  - lia.
  - unfold default_decay. lra.
  - unfold default_factor. lra.
  - exact large_dataset_factor.
Defined.

Lemma adaptive_repeat_overflow_witness :
  exists e, patch_adaptive_repeat_dataset repeat_config 1000 1 default_factor = Raises e.
Proof.
  apply (adaptive_repeat_overflow repeat_config 1000 1 default_factor);
    try reflexivity.
  lra.
Defined.

Lemma adaptive_repeat_at_most_factor_witness :
  exists t, times (data_train repeat_config_patched) = Some t /\
            (1 <= t <= Z.max (py_round default_factor) 1)%Z.
Proof.
  apply (adaptive_repeat_at_most_factor repeat_config repeat_config_patched
           100000 default_decay default_factor).
  - exact patch_repeat_config_large.
  - unfold default_decay. lra.
  - unfold default_factor. lra.
  - discriminate.
Defined.

(** ** remove_from_config *)

Section RemoveFromConfig.

Variable V : Type.

Lemma dict_has_del_same (key : String.string) (d : dict V) :
  dict_has key (dict_del key d) = false.
Proof.
  unfold dict_has, dict_del. induction d as [| [k v] d IH]; cbn; [reflexivity |].
  destruct (String.eqb_spec k key) as [-> | Hne]; cbn; [assumption |].
  apply String.eqb_neq in Hne. now rewrite Hne.
Qed.

Lemma dict_has_del_other (key k : String.string) (d : dict V) :
  k <> key -> dict_has k (dict_del key d) = dict_has k d.
Proof.
  intros Hk. unfold dict_has, dict_del.
  induction d as [| [k' v] d IH]; cbn; [reflexivity |].
  destruct (String.eqb_spec k' key) as [-> | Hne]; cbn.
  - apply not_eq_sym, String.eqb_neq in Hk. now rewrite Hk.
  - now rewrite IH.
Qed.

Lemma dict_get_del_other (key k : String.string) (d : dict V) :
  k <> key -> dict_get k (dict_del key d) = dict_get k d.
Proof.
  intros Hk. unfold dict_del.
  induction d as [| [k' v] d IH]; cbn; [reflexivity |].
  destruct (String.eqb_spec k' key) as [-> | Hne]; cbn.
  - apply not_eq_sym, String.eqb_neq in Hk. now rewrite Hk.
  - now rewrite IH.
Qed.

(** X15.  When [remove_from_config] returns, the key is no longer in the
    config, every other key is present or absent as before and keeps its
    value, and removing the key again changes nothing. *)
Theorem remove_from_config_removes
    (c c' : config_like V) (key : String.string) :
  remove_from_config c key = Returns c' ->
  has_key key c' = false /\
  (forall k, k <> key ->
     has_key k c' = has_key k c /\ get_key k c' = get_key k c) /\
  remove_from_config c' key = Returns c'.
Proof.
  unfold remove_from_config. intros H.
  assert (Hgone : has_key key c' = false).
  { destruct (has_key key c) eqn:Hk.
    - destruct c as [d | d | members]; try discriminate;
        injection H as <-; apply dict_has_del_same.
    - now injection H as <-. }
  split; [exact Hgone |]. split.
  - intros k Hne. destruct (has_key key c) eqn:Hk.
    + destruct c as [d | d | members]; try discriminate; injection H as <-; cbn;
        now rewrite dict_has_del_other, dict_get_del_other.
    + injection H as <-. auto.
  - now rewrite Hgone.
Qed.

(** [remove_from_config] raises, a [ValueError], exactly when the
    key is in a container that is neither a [Config] nor a [ConfigDict]; a
    missing key is never an error, whatever the container. *)
Theorem remove_from_config_raises
    (c : config_like V) (key : String.string) (e : py_error) :
  remove_from_config c key = Raises e <->
  e = ValueError /\ exists members, c = IsOther members /\ In key members.
Proof.
  unfold remove_from_config. split.
  - destruct (has_key key c) eqn:Hk; [| discriminate].
    destruct c as [d | d | members]; try discriminate.
    intros [= <-]. split; [reflexivity |]. exists members. split; [reflexivity |].
    cbn in Hk. apply existsb_exists in Hk as [k [Hin Heq]].
    apply String.eqb_eq in Heq. now subst k.
  - intros [-> [members [-> Hin]]]. cbn.
    assert (Hk : existsb (String.eqb key) members = true).
    { apply existsb_exists. exists key. split; [assumption | apply String.eqb_refl]. }
    now rewrite Hk.
Qed.

End RemoveFromConfig.

Lemma remove_from_config_removes_witness :
  has_key "ann_file"%string sample_cfg_dict_removed = false /\
  (forall k, k <> "ann_file"%string ->
     has_key k sample_cfg_dict_removed = has_key k sample_cfg_dict /\
     get_key k sample_cfg_dict_removed = get_key k sample_cfg_dict) /\
  remove_from_config sample_cfg_dict_removed "ann_file"%string
    = Returns sample_cfg_dict_removed.
Proof.
  apply (remove_from_config_removes nat sample_cfg_dict sample_cfg_dict_removed
           "ann_file"%string).
  reflexivity.
Defined.

(** ** patch_color_conversion *)

Section ColorConversion.

Lemma pipeline_step_nested_ind (P : pipeline_step -> Prop) :
  (forall type to_rgb transforms,
     match transforms with
     | Some steps => Forall P steps
     | None => True
     end -> P (Step type to_rgb transforms)) ->
  forall s, P s.
Proof.
  intros H. fix IH 1. intros [type to_rgb transforms]. apply H.
  destruct transforms as [steps |]; [| exact I].
  induction steps as [| s steps IHsteps]; constructor; [apply IH | exact IHsteps].
Qed.

(** One step, with the nested loop written as [patch_color_conversion]. *)
Lemma patch_color_step_eq (s : pipeline_step) :
  patch_color_step s =
  match s with
  | Step type to_rgb transforms =>
      if String.eqb type "Normalize" then
        Returns (Step type
                   (Some (negb match to_rgb with Some flag => flag | None => false end))
                   transforms)
      else if String.eqb type "MultiScaleFlipAug" then
        match transforms with
        | None => Raises AttributeError
        | Some steps =>
            match patch_color_conversion steps with
            | Raises e => Raises e
            | Returns steps' => Returns (Step type to_rgb (Some steps'))
            end
        end
      else Returns s
  end.
Proof.
  destruct s as [type to_rgb transforms]. cbn [patch_color_step].
  destruct (String.eqb type "Normalize"); [reflexivity |].
  destruct (String.eqb type "MultiScaleFlipAug"); [| reflexivity].
  destruct transforms as [steps |]; [| reflexivity].
  match goal with
  | |- match ?f steps with _ => _ end = _ =>
      assert (Hall : forall l, f l = patch_color_conversion l)
  end.
  { induction l as [| s l IHl]; cbn; [reflexivity |]. now rewrite IHl. }
  now rewrite Hall.
Qed.

Lemma patch_color_step_settles (s s1 : pipeline_step) :
  patch_color_step s = Returns s1 ->
  step_type s1 = step_type s /\ settles s1.
Proof.
  revert s1. induction s as [type to_rgb transforms IH] using pipeline_step_nested_ind.
  intros s1. rewrite patch_color_step_eq.
  destruct (String.eqb type "Normalize") eqn:Hn.
  - intros [= <-]. split; [reflexivity |].
    set (flag := match to_rgb with Some flag => flag | None => false end).
    exists (Step type (Some (negb (negb flag))) transforms).
    rewrite !patch_color_step_eq, Hn. split; [reflexivity |].
    now rewrite negb_involutive.
  - destruct (String.eqb type "MultiScaleFlipAug") eqn:Hm.
    + destruct transforms as [steps |]; [| discriminate].
      destruct (patch_color_conversion steps) as [steps1 | e] eqn:Hp; [| discriminate].
      intros [= <-]. split; [reflexivity |].
      assert (Hsteps : exists steps2,
                 patch_color_conversion steps1 = Returns steps2 /\
                 patch_color_conversion steps2 = Returns steps1).
      { clear Hn Hm. revert steps1 Hp.
        induction IH as [| s steps Hs _ IHsteps]; intros steps1 Hp; cbn in Hp.
        - injection Hp as <-. now exists [].
        - destruct (patch_color_step s) as [s1 |] eqn:Hs1; [| discriminate].
          destruct (patch_color_conversion steps) as [rest1 |] eqn:Hr; [| discriminate].
          injection Hp as <-.
          destruct (Hs s1 eq_refl) as [_ [s2 [H12 H21]]].
          destruct (IHsteps rest1 eq_refl) as [rest2 [Hr12 Hr21]].
          exists (s2 :: rest2). cbn. now rewrite H12, Hr12, H21, Hr21. }
      destruct Hsteps as [steps2 [H12 H21]].
      exists (Step type to_rgb (Some steps2)).
      rewrite !patch_color_step_eq, Hn, Hm, H12, H21. auto.
    + intros [= <-]. split; [reflexivity |].
      exists (Step type to_rgb transforms).
      rewrite !patch_color_step_eq, Hn, Hm. auto.
Qed.

(** The nested loops, written with the list functions. *)
Lemma reached_flags_step_eq (s : pipeline_step) :
  reached_flags_step s =
  match s with
  | Step type to_rgb transforms =>
      if String.eqb type "Normalize" then [to_rgb]
      else if String.eqb type "MultiScaleFlipAug" then
        match transforms with
        | None => []
        | Some steps => reached_flags steps
        end
      else []
  end.
Proof.
  destruct s as [type to_rgb transforms]. cbn [reached_flags_step].
  destruct (String.eqb type "Normalize"); [reflexivity |].
  destruct (String.eqb type "MultiScaleFlipAug"); [| reflexivity].
  destruct transforms as [steps |]; reflexivity.
Qed.

Lemma without_flags_step_eq (s : pipeline_step) :
  without_flags_step s =
  match s with
  | Step type to_rgb transforms =>
      if String.eqb type "Normalize" then Step type None transforms
      else if String.eqb type "MultiScaleFlipAug" then
        Step type to_rgb (option_map without_flags transforms)
      else s
  end.
Proof.
  destruct s as [type to_rgb transforms]. cbn [without_flags_step].
  destruct (String.eqb type "Normalize"); [reflexivity |].
  destruct (String.eqb type "MultiScaleFlipAug"); [| reflexivity].
  destruct transforms as [steps |]; reflexivity.
Qed.

(** What one pass does to the steps of a pipeline, from what it does to
    each step. *)
Lemma patch_color_conversion_steps (P : pipeline_step -> pipeline_step -> Prop)
    (steps steps1 : list pipeline_step) :
  Forall (fun s => forall s1, patch_color_step s = Returns s1 -> P s s1) steps ->
  patch_color_conversion steps = Returns steps1 ->
  Forall2 P steps steps1.
Proof.
  intros Hall. revert steps1.
  induction Hall as [| s steps Hs _ IH]; intros steps1 Hp; cbn in Hp.
  - injection Hp as <-. constructor.
  - destruct (patch_color_step s) as [s1 |] eqn:Hs1; [| discriminate].
    destruct (patch_color_conversion steps) as [rest1 |] eqn:Hr; [| discriminate].
    injection Hp as <-. constructor; [now apply Hs | now apply IH].
Qed.

Lemma flipped_steps (steps steps1 : list pipeline_step) :
  Forall2 flipped steps steps1 ->
  reached_flags steps1 = map negated (reached_flags steps) /\
  without_flags steps1 = without_flags steps.
Proof.
  unfold reached_flags, without_flags.
  induction 1 as [| s s1 steps steps1 [Hf Hw] _ [IHf IHw]]; cbn; [auto |].
  rewrite map_app, Hf, IHf, Hw, IHw. auto.
Qed.

Lemma patch_color_step_flips (s s1 : pipeline_step) :
  patch_color_step s = Returns s1 -> flipped s s1.
Proof.
  revert s1. induction s as [type to_rgb transforms IH] using pipeline_step_nested_ind.
  intros s1. rewrite patch_color_step_eq. unfold flipped.
  destruct (String.eqb type "Normalize") eqn:Hn.
  - intros [= <-]. rewrite !reached_flags_step_eq, !without_flags_step_eq, Hn.
    split; reflexivity.
  - destruct (String.eqb type "MultiScaleFlipAug") eqn:Hm.
    2: { intros [= <-]. rewrite !reached_flags_step_eq, Hn, Hm.
         split; reflexivity. }
    destruct transforms as [steps |]; [| discriminate].
    destruct (patch_color_conversion steps) as [steps1 | e] eqn:Hp; [| discriminate].
    intros [= <-]. rewrite !reached_flags_step_eq, !without_flags_step_eq, Hn, Hm.
    destruct (flipped_steps steps steps1
                (patch_color_conversion_steps flipped steps steps1 IH Hp))
      as [Hf Hw].
    cbn [option_map]. now rewrite Hf, Hw.
Qed.

Lemma negated_changes (flags : list (option bool)) :
  flags <> [] -> map negated (map negated flags) <> map negated flags.
Proof.
  destruct flags as [| flag flags]; [contradiction |]. intros _.
  cbn. unfold negated at 1 3. cbn [truthy].
  intros [= H _]. now destruct (truthy flag).
Qed.

(** X16.  When [patch_color_conversion] returns, every [to_rgb] entry it
    reaches (those of the [Normalize] steps, at any depth of
    [MultiScaleFlipAug] transforms) is set to the negation of its truth
    value, a missing entry counting as false, and nothing else in the
    pipeline changes.  A second pass succeeds too and a third pass gives the
    result of the first again; where the pipeline has such an entry, the
    second pass changes the pipeline again: the patch is not idempotent. *)
Theorem patch_color_conversion_flips (pipeline p1 : list pipeline_step) :
  patch_color_conversion pipeline = Returns p1 ->
  reached_flags p1 = map negated (reached_flags pipeline) /\
  without_flags p1 = without_flags pipeline /\
  exists p2,
    patch_color_conversion p1 = Returns p2 /\
    patch_color_conversion p2 = Returns p1 /\
    (reached_flags pipeline <> [] -> p2 <> p1).
Proof.
  intros H.
  assert (Hflips : forall p p', patch_color_conversion p = Returns p' ->
            reached_flags p' = map negated (reached_flags p) /\
            without_flags p' = without_flags p).
  { intros p p' Hp. apply flipped_steps.
    apply (patch_color_conversion_steps flipped p p'); [| exact Hp].
    apply Forall_forall. intros s _ s1. apply patch_color_step_flips. }
  destruct (Hflips _ _ H) as [Hf Hw]. split; [exact Hf |]. split; [exact Hw |].
  assert (Hsettles : exists p2,
            patch_color_conversion p1 = Returns p2 /\
            patch_color_conversion p2 = Returns p1).
  { clear Hf Hw Hflips. revert p1 H.
    induction pipeline as [| s rest IH]; intros p1 H; cbn in H.
    - injection H as <-. now exists [].
    - destruct (patch_color_step s) as [s1 |] eqn:Hs; [| discriminate].
      destruct (patch_color_conversion rest) as [rest1 |] eqn:Hr; [| discriminate].
      injection H as <-.
      destruct (patch_color_step_settles s s1 Hs) as [_ [s2 [H12 H21]]].
      destruct (IH rest1 eq_refl) as [rest2 [Hr12 Hr21]].
      exists (s2 :: rest2). cbn. now rewrite H12, Hr12, H21, Hr21. }
  destruct Hsettles as [p2 [H12 H21]]. exists p2.
  split; [exact H12 |]. split; [exact H21 |].
  intros Hne Heq. destruct (Hflips _ _ H12) as [Hf2 _].
  rewrite Heq, Hf in Hf2. symmetry in Hf2.
  now apply negated_changes in Hf2.
Qed.

End ColorConversion.

Lemma patch_color_conversion_flips_witness :
  reached_flags sample_pipeline_patched = map negated (reached_flags sample_pipeline) /\
  without_flags sample_pipeline_patched = without_flags sample_pipeline /\
  exists p2,
    patch_color_conversion sample_pipeline_patched = Returns p2 /\
    patch_color_conversion p2 = Returns sample_pipeline_patched /\
    (reached_flags sample_pipeline <> [] -> p2 <> sample_pipeline_patched).
Proof.
  apply (patch_color_conversion_flips sample_pipeline sample_pipeline_patched).
  reflexivity.
Defined.
